(** * MaxOut operator (paddle/fluid/operators/maxout_op.cc)

    A shallow embedding of the shape-inference rules of the [maxout] and
    [maxout_grad] operators, and of the forward value formula documented by
    [MaxOutOpMaker::Make], together with the properties stated about them. *)

From Stdlib Require Import ZArith Floats.SpecFloat.
From stdpp Require Import gmap strings list fin_maps.

(** ** Outcomes of a shape-inference callback *)

(** A callback either returns, throws the exception of a failed
    [PADDLE_ENFORCE*] check (carrying the message written in the source),
    fails inside the framework because a name is not bound, or performs an
    unchecked [operator[]] outside its container. *)
Inductive result (A : Type) : Type :=
  | Ok (a : A)
  | EnforceNotMet (msg : string)
  | NotFound (name : string)
  | OutOfRange (container : string) (idx : Z).

Arguments Ok {A} a.
Arguments EnforceNotMet {A} msg.
Arguments NotFound {A} name.
Arguments OutOfRange {A} container idx.

#[global] Instance result_ret : MRet result := λ A a, Ok a.

#[global] Instance result_bind : MBind result := λ A B f m,
  match m with
  | Ok a => f a
  | EnforceNotMet msg => EnforceNotMet msg
  | NotFound name => NotFound name
  | OutOfRange c i => OutOfRange c i
  end.

#[global] Instance result_fmap : FMap result := λ A B f m,
  match m with
  | Ok a => Ok (f a)
  | EnforceNotMet msg => EnforceNotMet msg
  | NotFound name => NotFound name
  | OutOfRange c i => OutOfRange c i
  end.

Definition is_Ok {A} (r : result A) : bool :=
  match r with Ok _ => true | _ => false end.

Definition throws {A} (r : result A) : bool :=
  match r with EnforceNotMet _ => true | _ => false end.

(** ** Machine integers *)

Module Int.
Local Open Scope Z_scope.

Definition int64_min : Z := - 2 ^ 63.
Definition int64_max : Z := 2 ^ 63 - 1.

(** The values of an [int64_t], the type of a dimension size. *)
Definition is_int64 (z : Z) : Prop := int64_min ≤ z ≤ int64_max.

(** Two's complement wrap-around of a 64-bit signed result. *)
Definition wrap64 (z : Z) : Z := (z + 2 ^ 63) mod 2 ^ 64 - 2 ^ 63.

(** [a / b] on [int64_t] (the [int] divisor is promoted): the quotient is
    truncated toward zero. *)
Definition int64_div (a b : Z) : Z := wrap64 (Z.quot a b).
End Int.

(** ** The framework's interface used by the operator *)

Module Framework.
Local Open Scope Z_scope.

(** Modelled from the spec: [framework::DDim] (framework/ddim.h is not
    under src/), the ordered shape of a tensor: a sequence of [int64_t]
    dimension sizes. *)
Abbreviation DDim := (list Z).

(** Modelled from the spec: [framework::InferShapeContext] (not under
    src/): the operator's input slots with the shape of the variable bound
    to each, its output slots with the shape recorded for each, and its
    integer attributes. A slot that is absent has no binding. *)
Record InferShapeContext : Type := {
  ctx_inputs : gmap string DDim;
  ctx_outputs : gmap string DDim;
  ctx_attrs : gmap string Z
}.

(** Modelled from the spec: [HasInput] and [HasOutput] tell whether a slot
    is present. *)
Definition HasInput (ctx : InferShapeContext) (name : string) : bool :=
  bool_decide (is_Some (ctx_inputs ctx !! name)).

Definition HasOutput (ctx : InferShapeContext) (name : string) : bool :=
  bool_decide (is_Some (ctx_outputs ctx !! name)).

(** Modelled from the spec: [GetInputDim] reads the shape of the variable
    bound to an input slot. *)
Definition GetInputDim (ctx : InferShapeContext) (name : string)
  : result DDim :=
  match ctx_inputs ctx !! name with
  | Some d => Ok d
  | None => NotFound name
  end.

(** Modelled from the spec: [ctx->Attrs().Get<int>(name)] reads an integer
    attribute. *)
Definition Attrs_Get_int (ctx : InferShapeContext) (name : string)
  : result Z :=
  match ctx_attrs ctx !! name with
  | Some v => Ok v
  | None => NotFound name
  end.

Definition with_output (ctx : InferShapeContext) (name : string)
  (d : DDim) : InferShapeContext :=
  {| ctx_inputs := ctx_inputs ctx;
     ctx_outputs := <[name := d]> (ctx_outputs ctx);
     ctx_attrs := ctx_attrs ctx |}.

Definition with_attrs (ctx : InferShapeContext) (attrs : gmap string Z)
  : InferShapeContext :=
  {| ctx_inputs := ctx_inputs ctx;
     ctx_outputs := ctx_outputs ctx;
     ctx_attrs := attrs |}.

(** Modelled from the spec: [SetOutputDim] writes a shape into the
    operator's output descriptor and has no other effect. *)
Definition SetOutputDim (ctx : InferShapeContext) (name : string)
  (d : DDim) : result InferShapeContext :=
  match ctx_outputs ctx !! name with
  | Some _ => Ok (with_output ctx name d)
  | None => NotFound name
  end.

(** Modelled from the spec: the [PADDLE_ENFORCE*] macros
    (platform/enforce.h is not under src/): a failed check is fatal and
    carries its message. *)
Definition PADDLE_ENFORCE (cond : bool) (msg : string) : result unit :=
  if cond then Ok () else EnforceNotMet msg.

(** Modelled from the spec: [PADDLE_ENFORCE_EQ], the check that two values
    are equal. *)
Definition PADDLE_ENFORCE_EQ (a b : bool) (msg : string) : result unit :=
  if bool_decide (a = b) then Ok () else EnforceNotMet msg.

(** Modelled from the spec: [PADDLE_ENFORCE_GT], the check that the first
    value is greater than the second. *)
Definition PADDLE_ENFORCE_GT (a b : Z) (msg : string) : result unit :=
  if bool_decide (a > b) then Ok () else EnforceNotMet msg.

(** Modelled from the spec: [in_x_dims[i]], a read of the shape at one of
    the positions of its rank ([DDim::operator[]] is not under src/). The
    source does not say what a read outside the rank gives: the model gives
    it no value and stops there. *)
Definition ddim_at (d : DDim) (i : Z) : result Z :=
  if bool_decide (0 ≤ i) then
    match d !! Z.to_nat i with
    | Some x => Ok x
    | None => OutOfRange "in_x_dims" i
    end
  else OutOfRange "in_x_dims" i.

(** [v[i] = x] on a [std::vector<int64_t>]: [operator[]] checks nothing,
    so an index outside [0, v.size()) is an out-of-bounds write. *)
Definition vector_set (v : list Z) (i : Z) (x : Z) : result (list Z) :=
  if bool_decide (0 ≤ i < Z.of_nat (length v)) then
    Ok (<[Z.to_nat i := x]> v)
  else OutOfRange "output_shape" i.

(** Modelled from the spec: [framework::make_ddim], the shape holding the
    sizes of a vector. *)
Definition make_ddim (v : list Z) : DDim := v.
End Framework.

(** ** The operator's shape inference *)

Module MaxOut.
Import Int Framework.
Local Open Scope Z_scope.

Definition msg_input_null : string :=
  "Input(X) of MaxoutOpshould not be null.".
Definition msg_output_null : string :=
  "Output(Out) of MaxoutOp should not be null.".
Definition msg_groups : string :=
  "Attr(groups) of Op(maxout) should be larger than 1.".
Definition msg_grad_input_null : string :=
  "Input(X) of MaxOutOpGrad must not be null.".
Definition msg_grad_output_null : string :=
  "Output(Grad@X) of MaxOutOpGrad should not be null.".

(** [MaxOutOp::InferShape] *)
Definition MaxOutOp_InferShape (ctx : InferShapeContext)
  : result InferShapeContext :=
  PADDLE_ENFORCE_EQ (HasInput ctx "X") true msg_input_null ;;
  PADDLE_ENFORCE_EQ (HasOutput ctx "Out") true msg_output_null ;;
  in_x_dims ← GetInputDim ctx "X" ;
  groups ← Attrs_Get_int ctx "groups" ;
  axis ← Attrs_Get_int ctx "axis" ;
  PADDLE_ENFORCE_GT groups 1 msg_groups ;;
  d0 ← ddim_at in_x_dims 0 ;
  d1 ← ddim_at in_x_dims 1 ;
  d2 ← ddim_at in_x_dims 2 ;
  d3 ← ddim_at in_x_dims 3 ;
  let output_shape := [d0; d1; d2; d3] in
  c ← ddim_at in_x_dims axis ;
  output_shape ← vector_set output_shape axis (int64_div c groups) ;
  SetOutputDim ctx "Out" (make_ddim output_shape).

(** A context of the operator: [X] bound to a variable of shape [S], [Out]
    bound to a variable whose shape is not inferred yet, and the two
    attributes set. *)
Definition op_ctx (S : DDim) (groups axis : Z) : InferShapeContext :=
  {| ctx_inputs := {[ "X" := S ]};
     ctx_outputs := {[ "Out" := [] ]};
     ctx_attrs := <[ "groups" := groups ]> {[ "axis" := axis ]} |}.

Section Grad.
(** [framework::GradVarName] is not under src/: the name of the gradient
    of a variable is taken as a parameter. *)
Variable GradVarName : string → string.

(** [MaxOutOpGrad::InferShape] *)
Definition MaxOutOpGrad_InferShape (ctx : InferShapeContext)
  : result InferShapeContext :=
  PADDLE_ENFORCE (HasInput ctx "X") msg_grad_input_null ;;
  PADDLE_ENFORCE (HasOutput ctx (GradVarName "X")) msg_grad_output_null ;;
  d ← GetInputDim ctx "X" ;
  SetOutputDim ctx (GradVarName "X") d.
End Grad.

(** A context of the gradient operator, for a naming of gradients by
    suffix: [X] bound to a variable of shape [S] and the gradient of [X]
    bound to a variable whose shape is not inferred yet. *)
Definition grad_suffix (name : string) : string := name +:+ "@GRAD".

Definition grad_ctx (S : DDim) : InferShapeContext :=
  {| ctx_inputs := {[ "X" := S ]};
     ctx_outputs := {[ grad_suffix "X" := [] ]};
     ctx_attrs := ∅ |}.
End MaxOut.

(** ** The forward value computation *)

Module Forward.
Import Framework MaxOut.

(** The kernel is registered for [float]: IEEE 754 binary32. *)
Definition prec : Z := 24.
Definition emax : Z := 128.

Definition fadd (a b : spec_float) : spec_float := SFadd prec emax a b.

Definition is_nan (v : spec_float) : bool :=
  match v with S754_nan => true | _ => false end.

(** An input that holds no NaN. *)
Definition no_nan (l : list spec_float) : Prop :=
  Forall (λ v, is_nan v = false) l.

(** A dyadic constant [m * 2 ^ e] in its binary32 representation. *)
Definition f32 (m e : Z) : spec_float := binary_normalize prec emax m e false.

(** Modelled from the spec: the standard floating-point maximum of two
    values, [(a < b) ? b : a]. *)
Definition fmax (a b : spec_float) : spec_float :=
  if SFltb a b then b else a.

(** Modelled from the spec: the maximum over the candidates of one output
    element. *)
Definition max_of (l : list spec_float) : option spec_float :=
  match l with
  | [] => None
  | v :: l' => Some (foldl fmax v l')
  end.

(** Modelled from the spec: a tensor, its shape and its elements in the
    flattened layout. *)
Record Tensor : Type := { dims : list Z; data : list spec_float }.

(** Modelled from the spec: the forward kernel ([MaxOutKernel] of
    maxout_op.h and the functor it calls are not under src/). The model
    follows the formula documented by [MaxOutOpMaker::Make],
    [y_{si+j} = max_k x_{gsi+sk+j}] with [g = groups],
    [s = input.size / num_channels], [0 <= i < num_channels / groups],
    [0 <= j < s] and [0 <= k < groups]. *)
Definition in_index (g s i j k : nat) : nat := g * s * i + s * k + j.

(** Modelled from the spec: the [groups] inputs that feed the output element
    [(i, j)]. *)
Definition candidates (x : list spec_float) (g s i j : nat)
  : option (list spec_float) :=
  mapM (λ k, x !! in_index g s i j k) (seq 0 g).

(** Modelled from the spec: the output element [(i, j)]. *)
Definition y (x : list spec_float) (g s i j : nat) : option spec_float :=
  candidates x g s i j ≫= max_of.

(** Modelled from the spec: the output values, one output channel [i]
    after the other and, within a channel, one position [j] after the
    other. *)
Definition maxout_values (x : list spec_float) (num_channels groups : nat)
  : option (list spec_float) :=
  if decide (num_channels = 0) then None
  else
    let s := length x `div` num_channels in
    @concat spec_float <$>
      mapM (λ i, mapM (λ j, y x groups s i j) (seq 0 s))
           (seq 0 (num_channels `div` groups)).

(** Modelled from the spec: a forward call. The shape of the output is the
    one [MaxOutOp::InferShape] records; its values follow the formula. *)
Definition MaxOutForward (X : Tensor) (groups axis : Z) : option Tensor :=
  match MaxOutOp_InferShape (op_ctx (dims X) groups axis) with
  | Ok ctx' =>
      out_dims ← ctx_outputs ctx' !! "Out" ;
      c ← dims X !! Z.to_nat axis ;
      out ← maxout_values (data X) (Z.to_nat c) (Z.to_nat groups) ;
      Some {| dims := out_dims; data := out |}
  | _ => None
  end.

(** The input in which the value at one position is increased by [eps]. *)
Definition increase (x : list spec_float) (idx : nat) (eps : spec_float)
  : list spec_float :=
  alter (λ v, fadd v eps) idx x.

(** The values of the concrete scenario. *)
Definition f_0_5 : spec_float := f32 1 (-1).
Definition f_1_0 : spec_float := f32 1 0.
Definition f_2_0 : spec_float := f32 2 0.
Definition f_2_5 : spec_float := f32 5 (-1).
Definition f_3_0 : spec_float := f32 3 0.
Definition f_3_5 : spec_float := f32 7 (-1).
Definition f_5_5 : spec_float := f32 11 (-1).

Definition scenario_input : Tensor :=
  {| dims := [1; 4; 1; 1]%Z; data := [f_1_0; f_3_0; f_2_0; f_0_5] |}.
End Forward.

(** ** The operator's declaration *)

Module Maker.
Import Framework.
Local Open Scope Z_scope.

(** An integer attribute as [AddAttr<int>] declares it, with the default
    that a chained [SetDefault] gives it, if any. *)
Record AttrDecl : Type := { attr_name : string; attr_default : option Z }.

Record OpProto : Type := {
  proto_inputs : list string;
  proto_outputs : list string;
  proto_attrs : list AttrDecl
}.

Definition empty_proto : OpProto :=
  {| proto_inputs := []; proto_outputs := []; proto_attrs := [] |}.

Definition AddInput (name : string) (p : OpProto) : OpProto :=
  {| proto_inputs := proto_inputs p ++ [name];
     proto_outputs := proto_outputs p;
     proto_attrs := proto_attrs p |}.

Definition AddOutput (name : string) (p : OpProto) : OpProto :=
  {| proto_inputs := proto_inputs p;
     proto_outputs := proto_outputs p ++ [name];
     proto_attrs := proto_attrs p |}.

Definition AddAttr_int (name : string) (default : option Z) (p : OpProto)
  : OpProto :=
  {| proto_inputs := proto_inputs p;
     proto_outputs := proto_outputs p;
     proto_attrs :=
       proto_attrs p ++ [{| attr_name := name; attr_default := default |}] |}.

(** [MaxOutOpMaker::Make]: the slots and attributes, in the order of the
    source; only [axis] has a default. *)
Definition Make : OpProto :=
  let p := empty_proto in
  let p := AddInput "X" p in
  let p := AddOutput "Out" p in
  let p := AddAttr_int "groups" None p in
  let p := AddAttr_int "axis" (Some 1) p in
  p.

(** Modelled from the spec: the check of one declared attribute when an
    operator is configured (the attribute checker is not under src/). A
    value that is given is kept, a missing one takes the default, and a
    missing attribute without default is an error. *)
Definition check_attr (d : AttrDecl) (attrs : gmap string Z)
  : result (gmap string Z) :=
  match attrs !! attr_name d, attr_default d with
  | Some _, _ => Ok attrs
  | None, Some v => Ok (<[attr_name d := v]> attrs)
  | None, None => NotFound (attr_name d)
  end.

Fixpoint check_attrs (ds : list AttrDecl) (attrs : gmap string Z)
  : result (gmap string Z) :=
  match ds with
  | [] => Ok attrs
  | d :: ds' => attrs' ← check_attr d attrs ; check_attrs ds' attrs'
  end.

(** Modelled from the spec: the configuration of a [maxout] operator from
    the attributes its user gives; the result is the context its shape
    inference runs in. *)
Definition configure (inputs outputs : gmap string DDim)
    (user_attrs : gmap string Z) : result InferShapeContext :=
  attrs ← check_attrs (proto_attrs Make) user_attrs ;
  Ok {| ctx_inputs := inputs; ctx_outputs := outputs; ctx_attrs := attrs |}.

(** A context in which the slots of both operators are bound: [X], [Out]
    and the gradient of [X] named by suffix. *)
Definition both_ctx (S : DDim) (groups axis : Z) : InferShapeContext :=
  {| ctx_inputs := {[ "X" := S ]};
     ctx_outputs := <[ "Out" := [] ]> {[ MaxOut.grad_suffix "X" := [] ]};
     ctx_attrs := <[ "groups" := groups ]> {[ "axis" := axis ]} |}.

(** Modelled from the spec: the total element count of a shape. *)
Definition numel (d : list Z) : Z := foldr Z.mul 1 d.
End Maker.

(** ** The build configuration of the fused operators
    (paddle/fluid/operators/fused/CMakeLists.txt) *)

Module FusedBuild.

(** What the script produces: the operator libraries it builds, in order,
    and the lines it appends itself to the pybind file. *)
Record BuildState : Type := {
  op_libs : list string;
  pybind_file : list string
}.

Definition EXCLUDES : list string :=
  [ "conv_fusion_op";
    "fusion_transpose_flatten_concat_op";
    "fusion_conv_inception_op";
    "fused_fc_elementwise_layernorm_op";
    "multihead_matmul_op" ].

(** Modelled from the spec: [register_operators] (cmake/operators.cmake is
    not under src/), the generic sweep: every operator library of the
    directory is built, but for the excluded ones. *)
Definition register_operators (dir excludes : list string) (st : BuildState)
  : BuildState :=
  {| op_libs := op_libs st ++ filter (λ o, o ∉ excludes) dir;
     pybind_file := pybind_file st |}.

(** Modelled from the spec: [op_library] builds one operator library. *)
Definition op_library (target : string) (st : BuildState) : BuildState :=
  {| op_libs := op_libs st ++ [target]; pybind_file := pybind_file st |}.

(** [file(APPEND ${pybind_file} line)] *)
Definition file_APPEND (line : string) (st : BuildState) : BuildState :=
  {| op_libs := op_libs st; pybind_file := pybind_file st ++ [line] |}.

(** [a VERSION_LESS b] on versions of a single component. *)
Definition VERSION_LESS (a b : N) : bool := (a <? b)%N.

(** The script, for the operator libraries [dir] of the directory. *)
Definition CMakeLists (dir : list string) (WITH_GPU : bool)
    (CUDNN_VERSION : N) : BuildState :=
  let st :=
    register_operators dir EXCLUDES {| op_libs := []; pybind_file := [] |} in
  if WITH_GPU then
    let st :=
      if negb (VERSION_LESS CUDNN_VERSION 7100) then
        file_APPEND "USE_CUDA_ONLY_OP(conv2d_fusion);\n"
          (op_library "conv_fusion_op" st)
      else st in
    let st :=
      file_APPEND "USE_CUDA_ONLY_OP(fusion_transpose_flatten_concat);\n"
        (op_library "fusion_transpose_flatten_concat_op" st) in
    let st :=
      if negb (VERSION_LESS CUDNN_VERSION 7100) then
        file_APPEND "USE_CUDA_ONLY_OP(conv2d_inception_fusion);\n"
          (op_library "fusion_conv_inception_op" st)
      else st in
    let st :=
      file_APPEND "USE_CUDA_ONLY_OP(fused_fc_elementwise_layernorm);\n"
        (op_library "fused_fc_elementwise_layernorm_op" st) in
    let st :=
      file_APPEND "USE_CUDA_ONLY_OP(multihead_matmul);\n"
        (op_library "multihead_matmul_op" st) in
    st
  else st.

(** The two libraries the script builds only with cuDNN 7.1 or above. *)
Definition needs_cudnn7 (o : string) : Prop :=
  o = "conv_fusion_op" ∨ o = "fusion_conv_inception_op".
End FusedBuild.

(** * Properties *)

Import Int Framework MaxOut Forward.

(** ** Machine arithmetic *)

Lemma wrap64_id (z : Z) : is_int64 z → wrap64 z = z.
Proof.
  unfold is_int64, int64_min, int64_max, wrap64. intros Hz.
  rewrite Z.mod_small; lia.
Qed.

Lemma quot_bounds (a b : Z) :
  (1 < b)%Z → (Z.min a 0 ≤ a ÷ b ≤ Z.max a 0)%Z.
Proof.
  intros Hb. destruct (Z.le_ge_cases 0 a) as [Ha|Ha].
  - assert (0 ≤ a ÷ b)%Z by (apply Z.quot_pos; lia).
    assert (a ÷ b ≤ a)%Z by (apply Z.quot_le_upper_bound; nia).
    lia.
  - assert (Hopp : (a ÷ b = - (- a ÷ b))%Z)
      by (rewrite Z.quot_opp_l by lia; lia).
    assert (0 ≤ - a ÷ b)%Z by (apply Z.quot_pos; lia).
    assert (- a ÷ b ≤ - a)%Z by (apply Z.quot_le_upper_bound; nia).
    lia.
Qed.

Lemma int64_div_quot (a b : Z) :
  is_int64 a → (1 < b)%Z → int64_div a b = (a ÷ b)%Z.
Proof.
  intros Ha Hb. unfold int64_div. apply wrap64_id.
  pose proof (quot_bounds a b Hb) as Hq.
  unfold is_int64, int64_min, int64_max in *. lia.
Qed.

(** ** Reads and writes of shapes *)

Lemma ddim_at_Ok (d : list Z) (i x : Z) :
  (0 ≤ i)%Z → d !! Z.to_nat i = Some x → ddim_at d i = Ok x.
Proof.
  intros Hi Hx. unfold ddim_at.
  rewrite bool_decide_eq_true_2 by done. by rewrite Hx.
Qed.

Lemma ddim_at_neg (d : list Z) (i : Z) :
  (i < 0)%Z → ddim_at d i = OutOfRange "in_x_dims" i.
Proof.
  intros Hi. unfold ddim_at. rewrite bool_decide_eq_false_2; [done | lia].
Qed.

Lemma ddim_at_cases (d : list Z) (i : Z) :
  (∃ x, ddim_at d i = Ok x ∧ (0 ≤ i)%Z ∧ d !! Z.to_nat i = Some x)
  ∨ ddim_at d i = OutOfRange "in_x_dims" i.
Proof.
  unfold ddim_at. case_bool_decide; [|by right].
  destruct (d !! Z.to_nat i) as [x|] eqn:E; [left; eauto | by right].
Qed.

Lemma vector_set_Ok (v : list Z) (i x : Z) :
  (0 ≤ i < Z.of_nat (length v))%Z →
  vector_set v i x = Ok (<[Z.to_nat i := x]> v).
Proof.
  intros Hi. unfold vector_set. by rewrite bool_decide_eq_true_2.
Qed.

Lemma vector_set_out (v : list Z) (i x : Z) :
  ¬ (0 ≤ i < Z.of_nat (length v))%Z →
  vector_set v i x = OutOfRange "output_shape" i.
Proof.
  intros Hi. unfold vector_set. by rewrite bool_decide_eq_false_2.
Qed.

Lemma vector_set_cases (v : list Z) (i x : Z) :
  (vector_set v i x = Ok (<[Z.to_nat i := x]> v)
   ∧ (0 ≤ i < Z.of_nat (length v))%Z)
  ∨ (vector_set v i x = OutOfRange "output_shape" i
     ∧ ¬ (0 ≤ i < Z.of_nat (length v))%Z).
Proof.
  destruct (decide (0 ≤ i < Z.of_nat (length v))%Z) as [Hi|Hi].
  - left. by rewrite vector_set_Ok.
  - right. by rewrite vector_set_out.
Qed.

(** ** One run of the forward shape inference *)

(** With both slots and both attributes bound and an input of rank at least
    four, the callback reduces to the check of [groups] followed by the read
    and the write at [axis]. *)
Lemma InferShape_run (ctx : InferShapeContext) (a b c d : Z) (rest o : list Z)
    (groups axis : Z) :
  ctx_inputs ctx !! "X" = Some (a :: b :: c :: d :: rest) →
  ctx_outputs ctx !! "Out" = Some o →
  ctx_attrs ctx !! "groups" = Some groups →
  ctx_attrs ctx !! "axis" = Some axis →
  MaxOutOp_InferShape ctx =
    if bool_decide (groups > 1)%Z then
      x ← ddim_at (a :: b :: c :: d :: rest) axis ;
      output_shape ← vector_set [a; b; c; d] axis (int64_div x groups) ;
      Ok (with_output ctx "Out" output_shape)
    else EnforceNotMet msg_groups.
Proof.
  intros HX HOut Hg Ha.
  unfold MaxOutOp_InferShape, HasInput, HasOutput, GetInputDim,
    Attrs_Get_int, SetOutputDim, PADDLE_ENFORCE_EQ, PADDLE_ENFORCE_GT.
  rewrite HX, HOut, Hg, Ha. simpl.
  case_bool_decide; [|done]. simpl.
  reflexivity.
Qed.

Lemma InferShape_no_input (ctx : InferShapeContext) :
  ctx_inputs ctx !! "X" = None →
  MaxOutOp_InferShape ctx = EnforceNotMet msg_input_null.
Proof.
  intros HX. unfold MaxOutOp_InferShape, HasInput, PADDLE_ENFORCE_EQ.
  rewrite HX. reflexivity.
Qed.

Lemma InferShape_no_output (ctx : InferShapeContext) :
  is_Some (ctx_inputs ctx !! "X") →
  ctx_outputs ctx !! "Out" = None →
  MaxOutOp_InferShape ctx = EnforceNotMet msg_output_null.
Proof.
  intros [S HX] HOut.
  unfold MaxOutOp_InferShape, HasInput, HasOutput, PADDLE_ENFORCE_EQ.
  rewrite HX, HOut. reflexivity.
Qed.

(** Whatever the context, the callback ends in one of these ways. *)
Ltac run_all :=
  unfold MaxOutOp_InferShape, HasInput, HasOutput, GetInputDim,
    Attrs_Get_int, SetOutputDim, PADDLE_ENFORCE_EQ, PADDLE_ENFORCE_GT,
    PADDLE_ENFORCE;
  repeat first
    [ progress simpl
    | case_bool_decide
    | match goal with
      | |- context [ddim_at ?d ?i] =>
          destruct (ddim_at_cases d i) as [(? & -> & _ & _)| ->]
      | |- context [vector_set ?v ?i ?x] =>
          destruct (vector_set_cases v i x) as [[-> _]|[-> _]]
      | |- context [@lookup _ _ (gmap string _) _ ?k ?m] =>
          destruct (m !! k) eqn:?
      end ].

Lemma GradInferShape_run (G : string → string) (ctx : InferShapeContext)
    (S o : list Z) :
  ctx_inputs ctx !! "X" = Some S →
  ctx_outputs ctx !! G "X" = Some o →
  MaxOutOpGrad_InferShape G ctx = Ok (with_output ctx (G "X") S).
Proof.
  intros HX HOut.
  unfold MaxOutOpGrad_InferShape, HasInput, HasOutput, GetInputDim,
    SetOutputDim, PADDLE_ENFORCE.
  rewrite HX, HOut. reflexivity.
Qed.

(** On a rank-4 input with [groups > 1] and [axis] in range the callback
    returns, whether or not [groups] divides the size at [axis]. *)
Lemma InferShape_rank4 (ctx : InferShapeContext) (S o : list Z)
    (groups axis x : Z) :
  ctx_inputs ctx !! "X" = Some S →
  ctx_outputs ctx !! "Out" = Some o →
  ctx_attrs ctx !! "groups" = Some groups →
  ctx_attrs ctx !! "axis" = Some axis →
  length S = 4 →
  (1 < groups)%Z →
  (0 ≤ axis < 4)%Z →
  S !! Z.to_nat axis = Some x →
  is_int64 x →
  MaxOutOp_InferShape ctx =
    Ok (with_output ctx "Out" (<[Z.to_nat axis := (x ÷ groups)%Z]> S)).
Proof.
  intros HX HOut Hg Ha Hlen Hgroups Haxis Hx Hix.
  destruct S as [|a [|b [|c [|d [|]]]]]; try discriminate Hlen.
  rewrite (InferShape_run ctx a b c d [] o groups axis) by done.
  rewrite bool_decide_eq_true_2 by lia.
  rewrite (ddim_at_Ok _ _ x) by (done || lia). simpl.
  rewrite vector_set_Ok by (simpl; lia). simpl.
  by rewrite int64_div_quot.
Qed.

Lemma is_int64_small (z : Z) : (Z.abs z < 2 ^ 31)%Z → is_int64 z.
Proof. unfold is_int64, int64_min, int64_max. lia. Qed.

(** ** Forward shape inference *)

(** C1. For a rank-4 input shape [S], with both slots bound, [groups > 1]
    and [axis] an index of [S], the forward shape inference returns and
    records for [Out] a shape [S'] of the same rank that agrees with [S] at
    every position but [axis], where it holds [S[axis] / groups], the
    quotient truncated toward zero. *)
Theorem forward_shape_inference (ctx : InferShapeContext) (S o : list Z)
    (groups axis : Z) :
  ctx_inputs ctx !! "X" = Some S →
  ctx_outputs ctx !! "Out" = Some o →
  ctx_attrs ctx !! "groups" = Some groups →
  ctx_attrs ctx !! "axis" = Some axis →
  length S = 4 →
  Forall is_int64 S →
  (1 < groups)%Z →
  (0 ≤ axis < 4)%Z →
  ∃ S' : list Z,
    MaxOutOp_InferShape ctx = Ok (with_output ctx "Out" S')
    ∧ length S' = 4
    ∧ (∀ i : nat, i ≠ Z.to_nat axis → S' !! i = S !! i)
    ∧ S' !! Z.to_nat axis = (λ c, c ÷ groups)%Z <$> S !! Z.to_nat axis.
Proof.
  intros HX HOut Hg Ha Hlen Hint Hgroups Haxis.
  destruct (lookup_lt_is_Some_2 S (Z.to_nat axis)) as [x Hx]; [lia|].
  assert (Hix : is_int64 x).
  { rewrite Forall_lookup in Hint. by apply (Hint (Z.to_nat axis)). }
  exists (<[Z.to_nat axis := (x ÷ groups)%Z]> S).
  split; [|split; [|split]].
  - by apply (InferShape_rank4 ctx S o).
  - by rewrite length_insert.
  - intros i Hi. by rewrite list_lookup_insert_ne.
  - rewrite Hx. simpl. apply list_lookup_insert_eq. lia.
Qed.

Lemma forward_shape_inference_witness :
  ∃ S' : list Z,
    MaxOutOp_InferShape (op_ctx [1; 4; 1; 1]%Z 2 1) =
      Ok (with_output (op_ctx [1; 4; 1; 1]%Z 2 1) "Out" S')
    ∧ length S' = 4
    ∧ (∀ i : nat, i ≠ 1 → S' !! i = [1; 4; 1; 1]%Z !! i)
    ∧ S' !! 1 = Some 2%Z.
Proof.
  apply (forward_shape_inference (op_ctx [1; 4; 1; 1]%Z 2 1)
           [1; 4; 1; 1]%Z [] 2 1);
    try reflexivity; try lia.
  repeat constructor; apply is_int64_small; simpl; lia.
Defined.

(** C2 (as stated, refuted). A channel size that [groups] does not divide is
    not rejected: on the shape (1, 3, 1, 1) with [groups = 2] and [axis = 1]
    the callback returns with the truncated shape (1, 1, 1, 1). *)
Lemma indivisible_not_rejected :
  (3 `rem` 2 ≠ 0)%Z
  ∧ MaxOutOp_InferShape (op_ctx [1; 3; 1; 1]%Z 2 1) =
      Ok (with_output (op_ctx [1; 3; 1; 1]%Z 2 1) "Out" [1; 1; 1; 1]%Z)
  ∧ throws (MaxOutOp_InferShape (op_ctx [1; 3; 1; 1]%Z 2 1)) = false.
Proof. split; [done|]. split; reflexivity. Qed.

(** C2 (amended). The callback makes no divisibility check: on a rank-4
    input with [groups > 1] and [axis] in range, a size at [axis] that
    [groups] does not divide is accepted, and the shape recorded for [Out]
    holds the truncated quotient there, which [groups] does not multiply
    back to the input size. *)
Theorem indivisible_channels_truncated (ctx : InferShapeContext)
    (S o : list Z) (groups axis c : Z) :
  ctx_inputs ctx !! "X" = Some S →
  ctx_outputs ctx !! "Out" = Some o →
  ctx_attrs ctx !! "groups" = Some groups →
  ctx_attrs ctx !! "axis" = Some axis →
  length S = 4 →
  (1 < groups)%Z →
  (0 ≤ axis < 4)%Z →
  S !! Z.to_nat axis = Some c →
  is_int64 c →
  (c `rem` groups ≠ 0)%Z →
  ∃ S' : list Z,
    MaxOutOp_InferShape ctx = Ok (with_output ctx "Out" S')
    ∧ S' !! Z.to_nat axis = Some (c ÷ groups)%Z
    ∧ (groups * (c ÷ groups) ≠ c)%Z.
Proof.
  intros HX HOut Hg Ha Hlen Hgroups Haxis Hc Hic Hrem.
  exists (<[Z.to_nat axis := (c ÷ groups)%Z]> S).
  split; [|split].
  - by apply (InferShape_rank4 ctx S o).
  - apply list_lookup_insert_eq. lia.
  - pose proof (Z.quot_rem' c groups). lia.
Qed.

Lemma indivisible_channels_truncated_witness :
  ∃ S' : list Z,
    MaxOutOp_InferShape (op_ctx [1; 3; 1; 1]%Z 2 1) =
      Ok (with_output (op_ctx [1; 3; 1; 1]%Z 2 1) "Out" S')
    ∧ S' !! 1 = Some 1%Z
    ∧ (2 * (3 ÷ 2) ≠ 3)%Z.
Proof.
  apply (indivisible_channels_truncated (op_ctx [1; 3; 1; 1]%Z 2 1)
           [1; 3; 1; 1]%Z [] 2 1 3);
    try reflexivity; try lia; try done.
Defined.

(** C6. With [groups <= 1] the forward shape inference never returns, and
    once both slots and the [axis] attribute are bound it fails on the
    check of [groups], with that check's message; with [groups > 1] it never
    fails with that message. *)
Theorem groups_must_exceed_one (ctx : InferShapeContext) (groups : Z) :
  ctx_attrs ctx !! "groups" = Some groups →
  ((groups ≤ 1)%Z →
     is_Ok (MaxOutOp_InferShape ctx) = false
     ∧ (is_Some (ctx_inputs ctx !! "X") →
        is_Some (ctx_outputs ctx !! "Out") →
        is_Some (ctx_attrs ctx !! "axis") →
        MaxOutOp_InferShape ctx = EnforceNotMet msg_groups))
  ∧ ((1 < groups)%Z → MaxOutOp_InferShape ctx ≠ EnforceNotMet msg_groups).
Proof.
  intros Hg. split; [intros Hle; split|intros Hgt].
  - revert Hg. run_all; intros; simplify_eq; try done; lia.
  - intros [S HX] [o HOut] [axis Ha].
    unfold MaxOutOp_InferShape, HasInput, HasOutput, GetInputDim,
      Attrs_Get_int, PADDLE_ENFORCE_EQ, PADDLE_ENFORCE_GT.
    rewrite HX, HOut, Hg, Ha. simpl.
    rewrite bool_decide_eq_false_2; [done | lia].
  - revert Hg. run_all; intros; simplify_eq; try done; lia.
Qed.

Lemma groups_must_exceed_one_witness :
  (is_Ok (MaxOutOp_InferShape (op_ctx [1; 4; 1; 1]%Z 1 1)) = false
   ∧ MaxOutOp_InferShape (op_ctx [1; 4; 1; 1]%Z 1 1) =
       EnforceNotMet msg_groups)
  ∧ MaxOutOp_InferShape (op_ctx [1; 4; 1; 1]%Z 2 1) ≠ EnforceNotMet msg_groups.
Proof.
  split.
  - destruct (groups_must_exceed_one (op_ctx [1; 4; 1; 1]%Z 1 1) 1
                ltac:(reflexivity)) as [H _].
    destruct (H ltac:(lia)) as [H1 H2]. split; [exact H1|].
    apply H2; eexists; reflexivity.
  - destruct (groups_must_exceed_one (op_ctx [1; 4; 1; 1]%Z 2 1) 2
                ltac:(reflexivity)) as [_ H].
    apply H. lia.
Defined.

(** C9. The callback neither checks nor normalises [axis]. With both slots
    and both attributes bound, [groups > 1] and an input of rank at least
    four, it returns exactly when [0 <= axis <= 3]; for every other value of
    [axis], [-1] among them, it ends in an access outside a container at
    index [axis], and the write [output_shape[axis]] is outside the four
    elements of [output_shape]. *)
Theorem axis_is_not_validated (ctx : InferShapeContext) (S o : list Z)
    (groups axis : Z) :
  ctx_inputs ctx !! "X" = Some S →
  ctx_outputs ctx !! "Out" = Some o →
  ctx_attrs ctx !! "groups" = Some groups →
  ctx_attrs ctx !! "axis" = Some axis →
  (1 < groups)%Z →
  4 ≤ length S →
  (is_Ok (MaxOutOp_InferShape ctx) = true ↔ (0 ≤ axis ≤ 3)%Z)
  ∧ (¬ (0 ≤ axis ≤ 3)%Z →
       (∃ container, MaxOutOp_InferShape ctx = OutOfRange container axis)
       ∧ ∀ (output_shape : list Z) (x : Z), length output_shape = 4 →
           vector_set output_shape axis x = OutOfRange "output_shape" axis).
Proof.
  intros HX HOut Hg Ha Hgroups Hlen.
  destruct S as [|a [|b [|c [|d rest]]]]; simpl in Hlen; try lia.
  rewrite (InferShape_run ctx a b c d rest o groups axis) by done.
  rewrite bool_decide_eq_true_2 by lia.
  destruct (decide (0 ≤ axis ≤ 3)%Z) as [Hin|Hout].
  - destruct (lookup_lt_is_Some_2 (a :: b :: c :: d :: rest) (Z.to_nat axis))
      as [x Hx]; [simpl; lia|].
    rewrite (ddim_at_Ok _ _ x) by (done || lia). simpl.
    rewrite vector_set_Ok by (simpl; lia). simpl.
    split; [done|]. intros Hn. by destruct Hn.
  - assert (Hw : ∀ (output_shape : list Z) (x : Z), length output_shape = 4 →
               vector_set output_shape axis x = OutOfRange "output_shape" axis).
    { intros v x Hv. apply vector_set_out. rewrite Hv. lia. }
    destruct (ddim_at_cases (a :: b :: c :: d :: rest) axis)
      as [(x & -> & _ & _)| ->]; simpl.
    + rewrite Hw by done. simpl.
      split; [split; [done|intros; by destruct Hout]|].
      intros _. split; [by eexists | exact Hw].
    + split; [split; [done|intros; by destruct Hout]|].
      intros _. split; [by eexists | exact Hw].
Qed.

Lemma axis_is_not_validated_witness :
  (is_Ok (MaxOutOp_InferShape (op_ctx [1; 1; 1; 4]%Z 2 (-1))) = true
   ↔ (0 ≤ -1 ≤ 3)%Z)
  ∧ (¬ (0 ≤ -1 ≤ 3)%Z →
       (∃ container,
          MaxOutOp_InferShape (op_ctx [1; 1; 1; 4]%Z 2 (-1)) =
            OutOfRange container (-1))
       ∧ ∀ (output_shape : list Z) (x : Z), length output_shape = 4 →
           vector_set output_shape (-1) x = OutOfRange "output_shape" (-1)).
Proof.
  apply (axis_is_not_validated (op_ctx [1; 1; 1; 4]%Z 2 (-1))
           [1; 1; 1; 4]%Z [] 2 (-1));
    try reflexivity; simpl; lia.
Defined.

(** C7. The forward shape inference fails on its presence checks when [X]
    or [Out] is absent, and the gradient shape inference when [X] or the
    gradient of [X] is absent; with the slots present, no presence check
    fails. *)
Theorem required_slots (G : string → string) (ctx : InferShapeContext) :
  (ctx_inputs ctx !! "X" = None →
     MaxOutOp_InferShape ctx = EnforceNotMet msg_input_null)
  ∧ (is_Some (ctx_inputs ctx !! "X") → ctx_outputs ctx !! "Out" = None →
     MaxOutOp_InferShape ctx = EnforceNotMet msg_output_null)
  ∧ (ctx_inputs ctx !! "X" = None →
     MaxOutOpGrad_InferShape G ctx = EnforceNotMet msg_grad_input_null)
  ∧ (is_Some (ctx_inputs ctx !! "X") → ctx_outputs ctx !! G "X" = None →
     MaxOutOpGrad_InferShape G ctx = EnforceNotMet msg_grad_output_null)
  ∧ (is_Some (ctx_inputs ctx !! "X") → is_Some (ctx_outputs ctx !! "Out") →
     MaxOutOp_InferShape ctx ≠ EnforceNotMet msg_input_null
     ∧ MaxOutOp_InferShape ctx ≠ EnforceNotMet msg_output_null)
  ∧ (is_Some (ctx_inputs ctx !! "X") → is_Some (ctx_outputs ctx !! G "X") →
     is_Ok (MaxOutOpGrad_InferShape G ctx) = true).
Proof.
  split; [apply InferShape_no_input|].
  split; [apply InferShape_no_output|].
  split; [|split; [|split]].
  - intros HX. unfold MaxOutOpGrad_InferShape, HasInput, PADDLE_ENFORCE.
    by rewrite HX.
  - intros [S HX] HOut.
    unfold MaxOutOpGrad_InferShape, HasInput, HasOutput, PADDLE_ENFORCE.
    by rewrite HX, HOut.
  - intros [S HX] [o HOut].
    unfold MaxOutOp_InferShape, HasInput, HasOutput, PADDLE_ENFORCE_EQ.
    rewrite HX, HOut. simpl. split; run_all; done.
  - intros [S HX] [o HOut].
    by rewrite (GradInferShape_run G ctx S o).
Qed.

Lemma required_slots_witness :
  MaxOutOp_InferShape (with_output (grad_ctx [2; 6; 3; 3]%Z) "Out" []) ≠
    EnforceNotMet msg_input_null
  ∧ is_Ok (MaxOutOpGrad_InferShape grad_suffix (grad_ctx [2; 6; 3; 3]%Z))
    = true
  ∧ MaxOutOp_InferShape (grad_ctx [2; 6; 3; 3]%Z) =
      EnforceNotMet msg_output_null.
Proof.
  split; [|split].
  - destruct (required_slots grad_suffix
                (with_output (grad_ctx [2; 6; 3; 3]%Z) "Out" []))
      as (_ & _ & _ & _ & H & _).
    apply H; eexists; reflexivity.
  - destruct (required_slots grad_suffix (grad_ctx [2; 6; 3; 3]%Z))
      as (_ & _ & _ & _ & _ & H).
    apply H; eexists; reflexivity.
  - destruct (required_slots grad_suffix (grad_ctx [2; 6; 3; 3]%Z))
      as (_ & H & _).
    apply H; [eexists|]; reflexivity.
Defined.

(** ** Gradient shape inference *)

(** C5. When the input [X] and the slot of its gradient are both present,
    the gradient shape inference returns and records for the gradient of
    [X] the shape of [X] itself, changing nothing else. *)
Theorem grad_shape_is_input_shape (G : string → string)
    (ctx : InferShapeContext) (S o : list Z) :
  ctx_inputs ctx !! "X" = Some S →
  ctx_outputs ctx !! G "X" = Some o →
  ∃ ctx' : InferShapeContext,
    MaxOutOpGrad_InferShape G ctx = Ok ctx'
    ∧ ctx_outputs ctx' !! G "X" = Some S
    ∧ ctx_inputs ctx' = ctx_inputs ctx
    ∧ ctx_attrs ctx' = ctx_attrs ctx
    ∧ ∀ name, name ≠ G "X" → ctx_outputs ctx' !! name = ctx_outputs ctx !! name.
Proof.
  intros HX HOut. exists (with_output ctx (G "X") S).
  split; [by apply (GradInferShape_run G ctx S o)|].
  split; [apply lookup_insert_eq|]. split; [done|]. split; [done|].
  intros name Hne. simpl. by rewrite lookup_insert_ne.
Qed.

Lemma grad_shape_is_input_shape_witness :
  ∃ ctx' : InferShapeContext,
    MaxOutOpGrad_InferShape grad_suffix (grad_ctx [2; 6; 3; 3]%Z) = Ok ctx'
    ∧ ctx_outputs ctx' !! grad_suffix "X" = Some [2; 6; 3; 3]%Z
    ∧ ctx_inputs ctx' = ctx_inputs (grad_ctx [2; 6; 3; 3]%Z)
    ∧ ctx_attrs ctx' = ctx_attrs (grad_ctx [2; 6; 3; 3]%Z)
    ∧ ∀ name, name ≠ grad_suffix "X" →
        ctx_outputs ctx' !! name =
          ctx_outputs (grad_ctx [2; 6; 3; 3]%Z) !! name.
Proof.
  apply (grad_shape_is_input_shape grad_suffix (grad_ctx [2; 6; 3; 3]%Z)
           [2; 6; 3; 3]%Z []);
    reflexivity.
Defined.

(** C10. The gradient shape inference reads no attribute and constrains
    neither the rank of [X] nor its sizes: replacing the attributes changes
    nothing of its outcome; whatever the shape of [X], it returns with that
    shape recorded for the gradient of [X] as soon as both slots are
    present; and it fails, on a presence check, exactly when one of the two
    slots is absent. *)
Theorem grad_shape_reads_no_attribute (G : string → string)
    (ctx : InferShapeContext) :
  (∀ attrs : gmap string Z,
     MaxOutOpGrad_InferShape G (with_attrs ctx attrs) =
       (λ c, with_attrs c attrs) <$> MaxOutOpGrad_InferShape G ctx)
  ∧ (∀ S o : list Z,
       ctx_inputs ctx !! "X" = Some S →
       ctx_outputs ctx !! G "X" = Some o →
       MaxOutOpGrad_InferShape G ctx = Ok (with_output ctx (G "X") S))
  ∧ (is_Ok (MaxOutOpGrad_InferShape G ctx) = false
     ↔ ctx_inputs ctx !! "X" = None ∨ ctx_outputs ctx !! G "X" = None)
  ∧ (is_Ok (MaxOutOpGrad_InferShape G ctx) = false
     → throws (MaxOutOpGrad_InferShape G ctx) = true).
Proof.
  split; [|split; [|split]].
  - intros attrs.
    unfold MaxOutOpGrad_InferShape, HasInput, HasOutput, GetInputDim,
      SetOutputDim, PADDLE_ENFORCE. simpl.
    destruct (ctx_inputs ctx !! "X") as [S|]; simpl; [|done].
    destruct (ctx_outputs ctx !! G "X") as [o|]; simpl; done.
  - intros S o. apply GradInferShape_run.
  - unfold MaxOutOpGrad_InferShape, HasInput, HasOutput, GetInputDim,
      SetOutputDim, PADDLE_ENFORCE.
    destruct (ctx_inputs ctx !! "X") as [S|]; simpl; [|by split; auto].
    destruct (ctx_outputs ctx !! G "X") as [o|]; simpl; [|by split; auto].
    split; [done|]. by intros [?|?].
  - unfold MaxOutOpGrad_InferShape, HasInput, HasOutput, GetInputDim,
      SetOutputDim, PADDLE_ENFORCE.
    destruct (ctx_inputs ctx !! "X") as [S|]; simpl; [|done].
    destruct (ctx_outputs ctx !! G "X") as [o|]; simpl; done.
Qed.

(** ** The order of binary32 values *)

Ltac cmp_cases :=
  repeat match goal with
  | |- context [Z.compare ?a ?b] => destruct (Z.compare_spec a b)
  | |- context [Pos.compare_cont Eq ?a ?b] =>
      change (Pos.compare_cont Eq a b) with (Pos.compare a b);
      destruct (Pos.compare_spec a b)
  end.

Lemma SFltb_irrefl (a : spec_float) : SFltb a a = false.
Proof.
  unfold SFltb, SFcompare. destruct a as [[]|[]| |[] m e]; try reflexivity.
  all: rewrite Z.compare_refl;
    change (Pos.compare_cont Eq m m) with (Pos.compare m m);
    by rewrite Pos.compare_refl.
Qed.

Lemma SFltb_asym (a b : spec_float) : SFltb a b = true → SFltb b a = false.
Proof.
  unfold SFltb, SFcompare.
  destruct a as [[]|[]| |[] ma ea], b as [[]|[]| |[] mb eb]; simpl;
    try discriminate; auto.
  all: cmp_cases; simpl; intros; try discriminate; subst; auto; try lia.
Qed.

(** A value that is not NaN lies on one side of every strict comparison. *)
Lemma SFltb_negtrans (a b c : spec_float) :
  is_nan b = false → SFltb a c = true →
  SFltb a b = true ∨ SFltb b c = true.
Proof.
  unfold SFltb, SFcompare.
  destruct a as [[]|[]| |[] ma ea], b as [[]|[]| |[] mb eb],
    c as [[]|[]| |[] mc ec]; simpl; intros Hb Hac;
    try discriminate; auto.
  all: revert Hac; cmp_cases; simpl; intros;
    try discriminate; subst; auto; try lia.
Qed.

Lemma SFltb_nan_l (a b : spec_float) : SFltb a b = true → is_nan a = false.
Proof. by destruct a. Qed.

(** [b] between [a] and [c]: not below is transitive through a value that is
    not NaN. *)
Lemma not_below_trans (a b c : spec_float) :
  is_nan b = false →
  SFltb b a = false → SFltb c b = false → SFltb c a = false.
Proof.
  intros Hb Hab Hbc. destruct (SFltb c a) eqn:Hca; [|done].
  destruct (SFltb_negtrans c b a Hb Hca); congruence.
Qed.

Lemma below_not_below (a b c : spec_float) :
  is_nan b = false →
  SFltb a b = false → SFltb a c = true → SFltb b c = true.
Proof.
  intros Hb Hab Hac. destruct (SFltb_negtrans a b c Hb Hac); congruence.
Qed.

(** Two values, neither NaN and neither below the other, compare equal. *)
Lemma SFeqb_not_below (a b : spec_float) :
  is_nan a = false → is_nan b = false →
  SFltb a b = false → SFltb b a = false → SFeqb a b = true.
Proof.
  unfold SFltb, SFeqb, SFcompare.
  destruct a as [[]|[]| |[] ma ea], b as [[]|[]| |[] mb eb]; simpl;
    try discriminate; auto.
  all: cmp_cases; simpl; intros; try discriminate; subst; auto; try lia.
Qed.

(** ** The maximum of the candidates *)

Lemma fmax_cases (a b : spec_float) : fmax a b = a ∨ fmax a b = b.
Proof. unfold fmax. destruct (SFltb a b); auto. Qed.

Lemma fmax_not_below_l (a b : spec_float) : SFltb (fmax a b) a = false.
Proof.
  unfold fmax. destruct (SFltb a b) eqn:E.
  - by apply SFltb_asym.
  - apply SFltb_irrefl.
Qed.

Lemma fmax_not_below_r (a b : spec_float) : SFltb (fmax a b) b = false.
Proof.
  unfold fmax. destruct (SFltb a b) eqn:E; [apply SFltb_irrefl | done].
Qed.

Lemma foldl_fmax_elem (l : list spec_float) (v : spec_float) :
  foldl fmax v l ∈ v :: l.
Proof.
  revert v. induction l as [|a l IH]; intros v; simpl;
    [apply elem_of_cons; by left|].
  pose proof (IH (fmax v a)) as Hin. rewrite !elem_of_cons in Hin |- *.
  destruct (fmax_cases v a) as [E|E]; rewrite E in Hin |- *;
    destruct Hin as [Hin|Hin]; rewrite ?elem_of_cons; auto.
Qed.

Lemma foldl_fmax_not_below (l : list spec_float) (v u : spec_float) :
  no_nan (v :: l) → u ∈ v :: l → SFltb (foldl fmax v l) u = false.
Proof.
  revert v u. induction l as [|a l IH]; intros v u Hnan Hu; simpl.
  - apply list_elem_of_singleton in Hu as ->. apply SFltb_irrefl.
  - apply Forall_cons in Hnan as [Hv Hnan].
    apply Forall_cons in Hnan as [Ha Hnan].
    assert (Hm : is_nan (fmax v a) = false)
      by (destruct (fmax_cases v a) as [-> | ->]; done).
    assert (Hnan' : no_nan (fmax v a :: l)) by by apply Forall_cons.
    assert (Htop : SFltb (foldl fmax (fmax v a) l) (fmax v a) = false)
      by (apply IH; [done | apply elem_of_cons; by left]).
    apply elem_of_cons in Hu as [-> | Hu].
    + eapply not_below_trans; [exact Hm | apply fmax_not_below_l | done].
    + apply elem_of_cons in Hu as [-> | Hu].
      * eapply not_below_trans; [exact Hm | apply fmax_not_below_r | done].
      * apply IH; [done | apply elem_of_cons; by right].
Qed.

Lemma max_of_spec (l : list spec_float) (m : spec_float) :
  max_of l = Some m →
  m ∈ l ∧ (no_nan l → ∀ u, u ∈ l → SFltb m u = false).
Proof.
  destruct l as [|v l]; simpl; [done|]. intros [= <-]. split.
  - apply foldl_fmax_elem.
  - intros Hnan u Hu. by apply foldl_fmax_not_below.
Qed.

(** ** Lists built position by position *)

Lemma mapM_seq_Some {B} (f : nat → option B) (n : nat) (l : list B) :
  mapM f (seq 0 n) = Some l →
  length l = n ∧ ∀ k, k < n → is_Some (f k) ∧ l !! k = f k.
Proof.
  intros H%mapM_Some_1. split.
  - rewrite <- (Forall2_length _ _ _ H). apply length_seq.
  - intros k Hk.
    destruct (Forall2_lookup_l _ _ _ k k H) as (b & Hb & Hf);
      [by apply lookup_seq_lt|].
    rewrite Hf. split; [by eexists | done].
Qed.

Lemma mapM_seq_is_Some {B} (f : nat → option B) (n : nat) :
  (∀ k, k < n → is_Some (f k)) → is_Some (mapM f (seq 0 n)).
Proof.
  intros H. apply mapM_is_Some_2, Forall_seq. intros k Hk. apply H. lia.
Qed.

Lemma length_concat_blocks {A} (ls : list (list A)) (s : nat) :
  Forall (λ b, length b = s) ls → length (concat ls) = s * length ls.
Proof.
  induction 1 as [|b ls Hb _ IH]; simpl; [lia|].
  rewrite length_app, IH, Hb. lia.
Qed.

Lemma lookup_concat_blocks {A} (ls : list (list A)) (s i j : nat) :
  Forall (λ b, length b = s) ls → j < s →
  concat ls !! (s * i + j) = ls !! i ≫= (.!! j).
Proof.
  intros Hls Hj. revert i. induction Hls as [|b ls Hb _ IH]; intros i.
  - by rewrite !lookup_nil.
  - destruct i as [|i]; simpl.
    + rewrite Nat.mul_0_r. simpl. apply lookup_app_l. lia.
    + rewrite lookup_app_r by lia.
      replace (s * S i + j - length b) with (s * i + j) by lia.
      apply IH.
Qed.

(** ** The forward values *)

(** Every index the formula reads lies inside the input. *)
Lemma in_index_lt (n C g i j k : nat) :
  i < C `div` g → j < n `div` C → k < g →
  in_index g (n `div` C) i j k < n.
Proof.
  intros Hi Hj Hk. unfold in_index.
  assert (C ≠ 0) by (intros ->; rewrite Nat.Div0.div_0_l in Hi; lia).
  pose proof (Nat.Div0.mul_div_le n C) as HnC.
  pose proof (Nat.Div0.mul_div_le C g) as HCg.
  set (s := n `div` C) in *. set (Co := C `div` g) in *.
  assert (H1 : g * i + k + 1 ≤ g * Co) by nia.
  assert (H2 : s * (g * i + k + 1) ≤ s * (g * Co))
    by by apply Nat.mul_le_mono_l.
  assert (H3 : s * (g * Co) ≤ s * C)
    by by apply Nat.mul_le_mono_l.
  replace (g * s * i + s * k + j) with (s * (g * i + k) + j) by lia.
  replace (s * (g * i + k + 1)) with (s * (g * i + k) + s) in H2 by lia.
  lia.
Qed.

(** For a fixed output element the formula reads [groups] distinct
    positions. *)
Lemma in_index_inj (g s i j k k' : nat) :
  j < s → in_index g s i j k = in_index g s i j k' → k = k'.
Proof. unfold in_index. intros Hj H. nia. Qed.

Lemma candidates_Some (x : list spec_float) (g s i j : nat) :
  (∀ k, k < g → in_index g s i j k < length x) →
  ∃ l, candidates x g s i j = Some l
    ∧ length l = g
    ∧ ∀ k, k < g → l !! k = x !! in_index g s i j k.
Proof.
  intros Hrange.
  destruct (mapM_seq_is_Some (λ k, x !! in_index g s i j k) g) as [l Hl].
  { intros k Hk. by apply lookup_lt_is_Some_2, Hrange. }
  exists l. split; [exact Hl|].
  destruct (mapM_seq_Some _ _ _ Hl) as [Hlen Hlk].
  split; [exact Hlen|]. intros k Hk. by apply Hlk.
Qed.

Lemma y_is_Some (x : list spec_float) (g s i j : nat) :
  0 < g →
  (∀ k, k < g → in_index g s i j k < length x) →
  is_Some (y x g s i j).
Proof.
  intros Hg Hrange.
  destruct (candidates_Some x g s i j Hrange) as (l & Hl & Hlen & _).
  unfold y. rewrite Hl. simpl.
  destruct l; simpl in *; [lia | by eexists].
Qed.

(** The value of an output element is one of its candidates, NaN or not. *)
Lemma y_elem (x : list spec_float) (g s i j : nat) (m : spec_float) :
  (∀ k, k < g → in_index g s i j k < length x) →
  y x g s i j = Some m →
  ∃ k, k < g ∧ x !! in_index g s i j k = Some m.
Proof.
  intros Hrange Hy.
  destruct (candidates_Some x g s i j Hrange) as (l & Hl & Hlen & Hlk).
  unfold y in Hy. rewrite Hl in Hy. simpl in Hy.
  destruct (max_of_spec l m Hy) as [Hin _].
  apply list_elem_of_lookup_1 in Hin as [k Hk].
  assert (Hkg : k < g) by (rewrite <- Hlen; by eapply lookup_lt_Some).
  exists k. split; [done|]. by rewrite <- (Hlk k Hkg).
Qed.

(** The value of an output element is one of its candidates, and no
    candidate is above it. *)
Lemma y_spec (x : list spec_float) (g s i j : nat) (m : spec_float) :
  no_nan x →
  (∀ k, k < g → in_index g s i j k < length x) →
  y x g s i j = Some m →
  (∃ k, k < g ∧ x !! in_index g s i j k = Some m)
  ∧ ∀ k, k < g →
      ∃ v, x !! in_index g s i j k = Some v ∧ SFltb m v = false.
Proof.
  intros Hnan Hrange Hy.
  split; [by apply y_elem|].
  destruct (candidates_Some x g s i j Hrange) as (l & Hl & Hlen & Hlk).
  unfold y in Hy. rewrite Hl in Hy. simpl in Hy.
  destruct (max_of_spec l m Hy) as [Hin Hub].
  assert (Hlnan : no_nan l).
  { apply Forall_lookup. intros k u Hu.
    assert (Hk : k < g) by (rewrite <- Hlen; by eapply lookup_lt_Some).
    rewrite (Hlk k Hk) in Hu.
    unfold no_nan in Hnan. rewrite Forall_lookup in Hnan. by eapply Hnan. }
  intros k Hk.
  destruct (lookup_lt_is_Some_2 l k) as [v Hv]; [lia|].
  exists v. split; [by rewrite <- (Hlk k Hk)|].
  apply (Hub Hlnan). by eapply list_elem_of_lookup_2.
Qed.

(** The forward computation returns, with one value per output element, the
    element [(i, j)] at the flattened index [s * i + j]. *)
Lemma maxout_values_spec (x : list spec_float) (C g : nat) :
  0 < C → 0 < g →
  ∃ out, maxout_values x C g = Some out
    ∧ length out = length x `div` C * (C `div` g)
    ∧ ∀ i j, i < C `div` g → j < length x `div` C →
        is_Some (y x g (length x `div` C) i j)
        ∧ out !! (length x `div` C * i + j) = y x g (length x `div` C) i j.
Proof.
  intros HC Hg. unfold maxout_values.
  destruct (decide (C = 0)) as [->|_]; [lia|]. simpl.
  set (s := length x `div` C). set (Co := C `div` g).
  assert (Hy : ∀ i j, i < Co → j < s → is_Some (y x g s i j)).
  { intros i j Hi Hj. apply y_is_Some; [done|].
    intros k Hk. by apply in_index_lt. }
  destruct (mapM_seq_is_Some
              (λ i, mapM (λ j, y x g s i j) (seq 0 s)) Co) as [ls Hls].
  { intros i Hi. apply mapM_seq_is_Some. intros j Hj. by apply Hy. }
  rewrite Hls. simpl. exists (concat ls).
  destruct (mapM_seq_Some _ _ _ Hls) as [Hlen Hrow].
  assert (Hblock : ∀ i b, ls !! i = Some b →
            length b = s ∧ ∀ j, j < s → b !! j = y x g s i j).
  { intros i b Hb.
    assert (Hi : i < Co) by (rewrite <- Hlen; by eapply lookup_lt_Some).
    destruct (Hrow i Hi) as [_ Hmap]. rewrite Hb in Hmap. symmetry in Hmap.
    destruct (mapM_seq_Some _ _ _ Hmap) as [Hbl Hbj].
    split; [exact Hbl|]. intros j Hj. by apply Hbj. }
  assert (Hall : Forall (λ b, length b = s) ls).
  { apply Forall_lookup. intros i b Hb. by apply (Hblock i b). }
  split; [done|]. split.
  - by rewrite (length_concat_blocks ls s Hall), Hlen.
  - intros i j Hi Hj. split; [by apply Hy|].
    rewrite (lookup_concat_blocks ls s i j Hall Hj).
    destruct (lookup_lt_is_Some_2 ls i) as [b Hb]; [lia|].
    rewrite Hb. simpl. by apply (Hblock i b).
Qed.

(** C4. For a positive number of channels and a positive [groups], the
    forward computation returns one value for every
    [0 <= i < num_channels / groups] and [0 <= j < s], with
    [s = input.size / num_channels]. The value at the flattened index
    [s * i + j] is one of the [groups] inputs at the indices
    [g * s * i + s * k + j], [0 <= k < groups], and, the input holding no
    NaN, none of these inputs is above it: it is their maximum. *)
Theorem output_is_group_maximum (x : list spec_float)
    (num_channels groups : nat) :
  0 < num_channels → 0 < groups →
  ∃ out, maxout_values x num_channels groups = Some out
    ∧ length out =
        length x `div` num_channels * (num_channels `div` groups)
    ∧ ∀ i j, i < num_channels `div` groups →
             j < length x `div` num_channels →
        ∃ m, out !! (length x `div` num_channels * i + j) = Some m
          ∧ (∃ k, k < groups
               ∧ x !! in_index groups (length x `div` num_channels) i j k
                 = Some m)
          ∧ (no_nan x → ∀ k, k < groups →
              ∃ v, x !! in_index groups (length x `div` num_channels) i j k
                   = Some v
                ∧ SFltb m v = false).
Proof.
  intros HC Hg.
  destruct (maxout_values_spec x num_channels groups HC Hg)
    as (out & Hout & Hlen & Hlk).
  exists out. split; [done|]. split; [done|].
  intros i j Hi Hj. destruct (Hlk i j Hi Hj) as [[m Hm] Hij].
  assert (Hrange : ∀ k, k < groups →
            in_index groups (length x `div` num_channels) i j k < length x)
    by (intros k Hk; by apply in_index_lt).
  exists m. split; [by rewrite Hij|]. split.
  - by apply y_elem.
  - intros Hnan. by apply y_spec.
Qed.

Lemma output_is_group_maximum_witness :
  ∃ out, maxout_values (data scenario_input) 4 2 = Some out
    ∧ length out = length (data scenario_input) `div` 4 * (4 `div` 2)
    ∧ ∀ i j, i < 4 `div` 2 → j < length (data scenario_input) `div` 4 →
        ∃ m, out !! (length (data scenario_input) `div` 4 * i + j) = Some m
          ∧ (∃ k, k < 2
               ∧ data scenario_input
                   !! in_index 2 (length (data scenario_input) `div` 4) i j k
                 = Some m)
          ∧ (no_nan (data scenario_input) → ∀ k, k < 2 →
              ∃ v, data scenario_input
                     !! in_index 2 (length (data scenario_input) `div` 4) i j k
                   = Some v
                ∧ SFltb m v = false).
Proof.
  apply (output_is_group_maximum (data scenario_input) 4 2); lia.
Defined.

(** C3 (as stated, refuted). On the input of shape (1, 4, 1, 1) holding
    1.0, 3.0, 2.0, 0.5, with [groups = 2] and [axis = 1], the forward call
    does not produce the values 2.0, 3.0. *)
Lemma scenario_is_not_strided :
  MaxOutForward scenario_input 2 1 ≠
    Some {| dims := [1; 2; 1; 1]%Z; data := [f_2_0; f_3_0] |}.
Proof. vm_compute. discriminate. Qed.

(** C3 (amended). On that input the forward call produces the shape
    (1, 2, 1, 1) and the values 3.0, 2.0: here [s = 1], so the first output
    is the maximum of the inputs at 0 and 1 and the second that of the
    inputs at 2 and 3. *)
Theorem scenario_values :
  MaxOutForward scenario_input 2 1 =
    Some {| dims := [1; 2; 1; 1]%Z; data := [f_3_0; f_2_0] |}
  ∧ length (data scenario_input) `div` 4 = 1
  ∧ (in_index 2 1 0 0 0, in_index 2 1 0 0 1) = (0, 1)
  ∧ (in_index 2 1 1 0 0, in_index 2 1 1 0 1) = (2, 3)
  ∧ fmax f_1_0 f_3_0 = f_3_0
  ∧ fmax f_2_0 f_0_5 = f_2_0.
Proof. repeat split; reflexivity. Qed.

(** ** Increasing one candidate *)

(** C8 (as stated, refuted). With the candidates 1.0 and 3.0 of one output,
    increasing the first by 2.5 moves the output from 3.0 to 3.5: it is
    neither unchanged nor increased by 2.5. *)
Lemma increase_crossing_the_maximum :
  SFltb (S754_zero false) f_2_5 = true
  ∧ maxout_values [f_1_0; f_3_0] 2 2 = Some [f_3_0]
  ∧ maxout_values (increase [f_1_0; f_3_0] (in_index 2 1 0 0 0) f_2_5) 2 2
    = Some [f_3_5]
  ∧ f_3_5 ≠ fadd f_3_0 f_2_5
  ∧ f_3_5 ≠ f_3_0.
Proof. repeat split; try reflexivity; vm_compute; discriminate. Qed.

Lemma increase_lookup (x : list spec_float) (idx p : nat) (eps : spec_float) :
  increase x idx eps !! p =
    if decide (idx = p) then (λ v, fadd v eps) <$> x !! idx else x !! p.
Proof.
  unfold increase. destruct (decide (idx = p)) as [->|Hne].
  - apply list_lookup_alter_eq.
  - by apply list_lookup_alter_ne.
Qed.

Lemma increase_no_nan (x : list spec_float) (idx : nat) (eps v : spec_float) :
  no_nan x → x !! idx = Some v → is_nan (fadd v eps) = false →
  no_nan (increase x idx eps).
Proof.
  intros Hnan Hv Hv'. apply Forall_lookup. intros p u.
  rewrite increase_lookup. destruct (decide (idx = p)) as [->|Hne].
  - rewrite Hv. simpl. by intros [= <-].
  - unfold no_nan in Hnan. rewrite Forall_lookup in Hnan. apply Hnan.
Qed.

(** C8 (amended). For an input without NaN, increase one candidate [v] of
    an output element by [eps], where the rounded sum [v + eps] is not NaN
    and not below [v]. If the old output is below [v + eps], the new output
    is [v + eps]; otherwise the new output compares equal to the old one.
    In particular, when [v] was the output and the sum is above it, the new
    output is the rounded sum of the old one and [eps]. *)
Theorem increase_one_candidate (x : list spec_float)
    (num_channels groups i j k : nat) (eps v : spec_float) :
  no_nan x →
  i < num_channels `div` groups →
  j < length x `div` num_channels →
  k < groups →
  x !! in_index groups (length x `div` num_channels) i j k = Some v →
  is_nan (fadd v eps) = false →
  SFltb (fadd v eps) v = false →
  ∃ out out' m m',
    maxout_values x num_channels groups = Some out
    ∧ maxout_values
        (increase x (in_index groups (length x `div` num_channels) i j k) eps)
        num_channels groups = Some out'
    ∧ out !! (length x `div` num_channels * i + j) = Some m
    ∧ out' !! (length x `div` num_channels * i + j) = Some m'
    ∧ (SFltb m (fadd v eps) = true → m' = fadd v eps)
    ∧ (SFltb m (fadd v eps) = false → SFeqb m' m = true)
    ∧ (m = v → SFltb v (fadd v eps) = true → m' = fadd m eps).
Proof.
  intros Hnan Hi Hj Hk Hv Hv' Hup.
  assert (HC : 0 < num_channels).
  { destruct (decide (num_channels = 0)) as [->|]; [|lia].
    rewrite Nat.Div0.div_0_l in Hi. lia. }
  set (s := length x `div` num_channels) in *.
  set (idx := in_index groups s i j k) in *.
  set (x2 := increase x idx eps).
  assert (Hg : 0 < groups) by lia.
  assert (Hlen2 : length x2 = length x) by apply length_alter.
  assert (Hnan2 : no_nan x2) by by apply (increase_no_nan x idx eps v).
  destruct (maxout_values_spec x num_channels groups HC Hg)
    as (out & Hout & _ & Hlk).
  destruct (maxout_values_spec x2 num_channels groups HC Hg)
    as (out' & Hout' & _ & Hlk').
  rewrite Hlen2 in Hlk'. fold s in Hlk, Hlk'.
  destruct (Hlk i j Hi Hj) as [[m Hm] Hij].
  destruct (Hlk' i j Hi Hj) as [[m' Hm'] Hij'].
  exists out, out', m, m'.
  split; [done|]. split; [done|].
  split; [by rewrite Hij|]. split; [by rewrite Hij'|].
  assert (Hrange : ∀ q, q < groups → in_index groups s i j q < length x)
    by (intros q Hq; by apply in_index_lt).
  destruct (y_spec x groups s i j m Hnan Hrange Hm)
    as [(p & Hp & Hpm) Hub].
  assert (Hrange2 : ∀ q, q < groups → in_index groups s i j q < length x2)
    by (intros q Hq; rewrite Hlen2; by apply Hrange).
  destruct (y_spec x2 groups s i j m' Hnan2 Hrange2 Hm')
    as [(p' & Hp' & Hpm') Hub'].
  (* what the increased input holds at the candidates *)
  assert (Hk2 : x2 !! idx = Some (fadd v eps)).
  { unfold x2. rewrite increase_lookup, decide_True by done. by rewrite Hv. }
  assert (Hother : ∀ q, q ≠ k →
            x2 !! in_index groups s i j q = x !! in_index groups s i j q).
  { intros q Hq. unfold x2. rewrite increase_lookup, decide_False; [done|].
    intros Heq. apply Hq. symmetry. by apply (in_index_inj groups s i j k q). }
  assert (Hm'nan : is_nan m' = false).
  { unfold no_nan in Hnan2. rewrite Forall_lookup in Hnan2. by eapply Hnan2. }
  assert (Hmnan : is_nan m = false).
  { unfold no_nan in Hnan. rewrite Forall_lookup in Hnan. by eapply Hnan. }
  assert (Htop' : SFltb m' (fadd v eps) = false).
  { destruct (Hub' k Hk) as (u & Hu & Hmu). fold idx in Hu.
    rewrite Hk2 in Hu. by injection Hu as <-. }
  assert (Hbig : SFltb m (fadd v eps) = true → m' = fadd v eps).
  { intros Hlt. destruct (decide (p' = k)) as [->|Hne].
    - fold idx in Hpm'. rewrite Hk2 in Hpm'. by injection Hpm' as <-.
    - rewrite (Hother p' Hne) in Hpm'.
      destruct (Hub p' Hp') as (u & Hu & Hmu).
      rewrite Hpm' in Hu. injection Hu as <-.
      pose proof (below_not_below m m' (fadd v eps) Hm'nan Hmu Hlt).
      congruence. }
  split; [exact Hbig|]. split.
  - intros Hnlt. apply SFeqb_not_below; [done|done| |].
    + destruct (decide (p = k)) as [->|Hne].
      * fold idx in Hpm. rewrite Hv in Hpm. injection Hpm as <-.
        by apply (not_below_trans v (fadd v eps) m').
      * destruct (Hub' p Hp) as (u & Hu & Hmu).
        rewrite (Hother p Hne), Hpm in Hu. by injection Hu as <-.
    + destruct (decide (p' = k)) as [->|Hne].
      * fold idx in Hpm'. rewrite Hk2 in Hpm'. by injection Hpm' as <-.
      * rewrite (Hother p' Hne) in Hpm'.
        destruct (Hub p' Hp') as (u & Hu & Hmu).
        rewrite Hpm' in Hu. by injection Hu as <-.
  - intros -> Hlt. by apply Hbig.
Qed.

Lemma increase_one_candidate_witness :
  ∃ out out' m m',
    maxout_values [f_1_0; f_3_0] 2 2 = Some out
    ∧ maxout_values
        (increase [f_1_0; f_3_0]
           (in_index 2 (length [f_1_0; f_3_0] `div` 2) 0 0 0) f_2_5)
        2 2 = Some out'
    ∧ out !! (length [f_1_0; f_3_0] `div` 2 * 0 + 0) = Some m
    ∧ out' !! (length [f_1_0; f_3_0] `div` 2 * 0 + 0) = Some m'
    ∧ (SFltb m (fadd f_1_0 f_2_5) = true → m' = fadd f_1_0 f_2_5)
    ∧ (SFltb m (fadd f_1_0 f_2_5) = false → SFeqb m' m = true)
    ∧ (m = f_1_0 → SFltb f_1_0 (fadd f_1_0 f_2_5) = true →
       m' = fadd m f_2_5).
Proof.
  apply (increase_one_candidate [f_1_0; f_3_0] 2 2 0 0 0 f_2_5 f_1_0);
    try reflexivity; try (simpl; lia).
  repeat constructor.
Defined.

Lemma grad_shape_reads_no_attribute_witness :
  MaxOutOpGrad_InferShape grad_suffix
    (with_attrs (grad_ctx [7; 5]%Z) {[ "groups" := 0%Z ]}) =
  (λ c, with_attrs c {[ "groups" := 0%Z ]}) <$>
    MaxOutOpGrad_InferShape grad_suffix (grad_ctx [7; 5]%Z).
Proof.
  destruct (grad_shape_reads_no_attribute grad_suffix (grad_ctx [7; 5]%Z))
    as [H _].
  apply H.
Defined.

(** * Further properties of the shape inference *)

Import Maker FusedBuild.

Lemma lookup_first_four (a b c d : Z) (rest : list Z) (n : nat) :
  n < 4 → (a :: b :: c :: d :: rest) !! n = [a; b; c; d] !! n.
Proof.
  intros Hn. do 4 (destruct n as [|n]; [done|]). lia.
Qed.

(** When the forward shape inference returns, and what. *)
Lemma InferShape_Ok (ctx ctx' : InferShapeContext) :
  MaxOutOp_InferShape ctx = Ok ctx' ↔
  ∃ (a b c d : Z) (rest o : list Z) (groups axis x : Z),
    ctx_inputs ctx !! "X" = Some (a :: b :: c :: d :: rest)
    ∧ ctx_outputs ctx !! "Out" = Some o
    ∧ ctx_attrs ctx !! "groups" = Some groups
    ∧ ctx_attrs ctx !! "axis" = Some axis
    ∧ (1 < groups)%Z
    ∧ (0 ≤ axis ≤ 3)%Z
    ∧ [a; b; c; d] !! Z.to_nat axis = Some x
    ∧ ctx' = with_output ctx "Out"
               (<[Z.to_nat axis := int64_div x groups]> [a; b; c; d]).
Proof.
  split.
  - intros Hrun.
    destruct (ctx_inputs ctx !! "X") as [S|] eqn:HX;
      [|by rewrite InferShape_no_input in Hrun].
    destruct (ctx_outputs ctx !! "Out") as [o|] eqn:HOut;
      [|by rewrite InferShape_no_output in Hrun by eauto].
    destruct (ctx_attrs ctx !! "groups") as [groups|] eqn:Hg; cycle 1.
    { revert Hrun. unfold MaxOutOp_InferShape, HasInput, HasOutput,
        GetInputDim, Attrs_Get_int, PADDLE_ENFORCE_EQ.
      by rewrite HX, HOut, Hg. }
    destruct (ctx_attrs ctx !! "axis") as [axis|] eqn:Ha; cycle 1.
    { revert Hrun. unfold MaxOutOp_InferShape, HasInput, HasOutput,
        GetInputDim, Attrs_Get_int, PADDLE_ENFORCE_EQ.
      by rewrite HX, HOut, Hg, Ha. }
    destruct (decide (4 ≤ length S)) as [Hlen|Hlen]; cycle 1.
    { revert Hrun. unfold MaxOutOp_InferShape, HasInput, HasOutput,
        GetInputDim, Attrs_Get_int, PADDLE_ENFORCE_EQ, PADDLE_ENFORCE_GT.
      rewrite HX, HOut, Hg, Ha. simpl. case_bool_decide; [|done]. simpl.
      destruct (ddim_at_cases S 0) as [(x0 & -> & _ & _)| ->]; [|done].
      destruct (ddim_at_cases S 1) as [(x1 & -> & _ & _)| ->]; [|done].
      destruct (ddim_at_cases S 2) as [(x2 & -> & _ & _)| ->]; [|done].
      destruct (ddim_at_cases S 3) as [(x3 & -> & _ & H3)| ->]; [|done].
      apply lookup_lt_Some in H3. change (Z.to_nat 3) with 3 in H3. lia. }
    destruct S as [|a [|b [|c [|d rest]]]]; simpl in Hlen; try lia.
    rewrite (InferShape_run ctx a b c d rest o groups axis) in Hrun by done.
    case_bool_decide as Hgt; [|done].
    destruct (ddim_at_cases (a :: b :: c :: d :: rest) axis)
      as [(x & Hrd & Hpos & Hx)|Hrd]; rewrite Hrd in Hrun; [|done].
    simpl in Hrun.
    destruct (vector_set_cases [a; b; c; d] axis (int64_div x groups))
      as [[Hw Hin]|[Hw _]]; rewrite Hw in Hrun; [|done].
    simpl in Hrun, Hin. injection Hrun as <-.
    exists a, b, c, d, rest, o, groups, axis, x.
    rewrite lookup_first_four in Hx by lia.
    repeat split; (done || lia).
  - intros (a & b & c & d & rest & o & groups & axis & x
            & HX & HOut & Hg & Ha & Hgt & Hax & Hx & ->).
    rewrite (InferShape_run ctx a b c d rest o groups axis) by done.
    rewrite bool_decide_eq_true_2 by lia.
    rewrite (ddim_at_Ok _ _ x)
      by (try lia; by rewrite lookup_first_four by lia).
    simpl. by rewrite vector_set_Ok by (simpl; lia).
Qed.



(** X2. The forward shape inference throws with one of three messages only,
    and each names its cause: the one of [Input(X)] exactly when [X] is
    absent; the one of [Output(Out)] exactly when [X] is present and [Out]
    absent; the one of [groups] exactly when both slots are present, both
    attributes are set and [groups <= 1]. *)
Theorem InferShape_throws_iff (ctx : InferShapeContext) (msg : string) :
  MaxOutOp_InferShape ctx = EnforceNotMet msg ↔
    (msg = msg_input_null ∧ ctx_inputs ctx !! "X" = None)
  ∨ (msg = msg_output_null
     ∧ is_Some (ctx_inputs ctx !! "X") ∧ ctx_outputs ctx !! "Out" = None)
  ∨ (msg = msg_groups
     ∧ is_Some (ctx_inputs ctx !! "X") ∧ is_Some (ctx_outputs ctx !! "Out")
     ∧ is_Some (ctx_attrs ctx !! "axis")
     ∧ ∃ groups, ctx_attrs ctx !! "groups" = Some groups ∧ (groups ≤ 1)%Z).
Proof.
  split.
  - destruct (ctx_inputs ctx !! "X") as [S|] eqn:HX; cycle 1.
    { rewrite InferShape_no_input by done. intros [= <-]. by left. }
    destruct (ctx_outputs ctx !! "Out") as [o|] eqn:HOut; cycle 1.
    { rewrite InferShape_no_output by eauto.
      intros [= <-]. right; left. eauto. }
    unfold MaxOutOp_InferShape, HasInput, HasOutput, GetInputDim,
      Attrs_Get_int, SetOutputDim, PADDLE_ENFORCE_EQ, PADDLE_ENFORCE_GT.
    rewrite HX, HOut. simpl.
    destruct (ctx_attrs ctx !! "groups") as [groups|] eqn:Hg; [|done].
    destruct (ctx_attrs ctx !! "axis") as [axis|] eqn:Ha; [|done]. simpl.
    case_bool_decide as Hgt; simpl.
    + repeat match goal with
        | |- context [ddim_at ?d ?i] =>
            destruct (ddim_at_cases d i) as [(? & -> & _ & _)| ->]; simpl
        | |- context [vector_set ?v ?i ?x] =>
            destruct (vector_set_cases v i x) as [[-> _]|[-> _]]; simpl
        end; done.
    + intros [= <-]. right; right.
      repeat split; by eexists.
  - intros [[-> HX]|[(-> & HX & HOut)|(-> & [S HX] & [o HOut] & [axis Ha]
                                         & groups & Hg & Hle)]].
    + by apply InferShape_no_input.
    + by apply InferShape_no_output.
    + unfold MaxOutOp_InferShape, HasInput, HasOutput, GetInputDim,
        Attrs_Get_int, PADDLE_ENFORCE_EQ, PADDLE_ENFORCE_GT.
      rewrite HX, HOut, Hg, Ha. simpl.
      rewrite bool_decide_eq_false_2; [done | lia].
Qed.

Lemma InferShape_throws_iff_witness :
  MaxOutOp_InferShape (op_ctx [1; 4; 1; 1]%Z 1 1) = EnforceNotMet msg_groups.
Proof.
  apply (InferShape_throws_iff (op_ctx [1; 4; 1; 1]%Z 1 1) msg_groups).
  right; right. split; [reflexivity|].
  split; [eexists; reflexivity|]. split; [eexists; reflexivity|].
  split; [eexists; reflexivity|]. exists 1%Z. split; [reflexivity | lia].
Defined.

(** ** Running the callbacks again, and one after the other *)

Lemma with_output_twice (ctx : InferShapeContext) (name : string)
    (d d' : list Z) :
  with_output (with_output ctx name d) name d' = with_output ctx name d'.
Proof. unfold with_output. simpl. by rewrite insert_insert_eq. Qed.

Lemma with_output_commute (ctx : InferShapeContext) (n1 n2 : string)
    (d1 d2 : list Z) :
  n1 ≠ n2 →
  with_output (with_output ctx n1 d1) n2 d2 =
  with_output (with_output ctx n2 d2) n1 d1.
Proof.
  intros Hne. unfold with_output. simpl. f_equal.
  by apply insert_insert_ne.
Qed.

Lemma GradInferShape_Ok (G : string → string) (ctx ctx' : InferShapeContext) :
  MaxOutOpGrad_InferShape G ctx = Ok ctx' ↔
  ∃ S o : list Z,
    ctx_inputs ctx !! "X" = Some S
    ∧ ctx_outputs ctx !! G "X" = Some o
    ∧ ctx' = with_output ctx (G "X") S.
Proof.
  split.
  - unfold MaxOutOpGrad_InferShape, HasInput, HasOutput, GetInputDim,
      SetOutputDim, PADDLE_ENFORCE.
    destruct (ctx_inputs ctx !! "X") as [S|] eqn:HX; simpl; [|done].
    destruct (ctx_outputs ctx !! G "X") as [o|] eqn:HOut; simpl; [|done].
    intros [= <-]. by exists S, o.
  - intros (S & o & HX & HOut & ->). by apply (GradInferShape_run G ctx S o).
Qed.

Lemma InferShape_again (ctx ctx' : InferShapeContext) :
  MaxOutOp_InferShape ctx = Ok ctx' → MaxOutOp_InferShape ctx' = Ok ctx'.
Proof.
  intros (a & b & c & d & rest & o & groups & axis & x
          & HX & HOut & Hg & Ha & Hgt & Hax & Hx & ->)%InferShape_Ok.
  apply InferShape_Ok.
  exists a, b, c, d, rest,
    (<[Z.to_nat axis := int64_div x groups]> [a; b; c; d]), groups, axis, x.
  repeat split; try done; try lia.
  - simpl. apply lookup_insert_eq.
  - by rewrite with_output_twice.
Qed.

Lemma GradInferShape_again (G : string → string)
    (ctx ctx' : InferShapeContext) :
  MaxOutOpGrad_InferShape G ctx = Ok ctx' →
  MaxOutOpGrad_InferShape G ctx' = Ok ctx'.
Proof.
  intros (S & o & HX & HOut & ->)%GradInferShape_Ok.
  apply GradInferShape_Ok. exists S, S.
  split; [done|]. split; [simpl; apply lookup_insert_eq|].
  by rewrite with_output_twice.
Qed.

(** X3. Shape inference is idempotent: run on the context it has returned,
    the forward callback, and likewise the gradient one, returns that
    context unchanged. *)
Theorem shape_inference_idempotent (G : string → string)
    (ctx ctx' : InferShapeContext) :
  (MaxOutOp_InferShape ctx = Ok ctx' → MaxOutOp_InferShape ctx' = Ok ctx')
  ∧ (MaxOutOpGrad_InferShape G ctx = Ok ctx' →
     MaxOutOpGrad_InferShape G ctx' = Ok ctx').
Proof.
  split; [apply InferShape_again | apply GradInferShape_again].
Qed.

Lemma shape_inference_idempotent_witness :
  MaxOutOp_InferShape
    (with_output (op_ctx [1; 4; 1; 1]%Z 2 1) "Out" [1; 2; 1; 1]%Z) =
  Ok (with_output (op_ctx [1; 4; 1; 1]%Z 2 1) "Out" [1; 2; 1; 1]%Z).
Proof.
  destruct (shape_inference_idempotent grad_suffix
              (op_ctx [1; 4; 1; 1]%Z 2 1)
              (with_output (op_ctx [1; 4; 1; 1]%Z 2 1) "Out" [1; 2; 1; 1]%Z))
    as [H _].
  apply H. reflexivity.
Defined.

(** X4. The two callbacks commute: on a context on which each of them
    returns, with the gradient of [X] named differently from [Out], running
    the gradient callback after the forward one and the forward callback
    after the gradient one return the same context. *)
Theorem forward_and_gradient_commute (G : string → string)
    (ctx c1 c2 : InferShapeContext) :
  G "X" ≠ "Out" →
  MaxOutOp_InferShape ctx = Ok c1 →
  MaxOutOpGrad_InferShape G ctx = Ok c2 →
  ∃ c12 : InferShapeContext,
    MaxOutOpGrad_InferShape G c1 = Ok c12
    ∧ MaxOutOp_InferShape c2 = Ok c12
    ∧ ctx_outputs c12 !! "Out" = ctx_outputs c1 !! "Out"
    ∧ ctx_outputs c12 !! G "X" = ctx_inputs ctx !! "X".
Proof.
  intros Hne
    (a & b & c & d & rest & o & groups & axis & x
     & HX & HOut & Hg & Ha & Hgt & Hax & Hx & ->)%InferShape_Ok
    (S & o' & HX' & HOut' & ->)%GradInferShape_Ok.
  rewrite HX in HX'. injection HX' as <-.
  set (S' := <[Z.to_nat axis := int64_div x groups]> [a; b; c; d]).
  exists (with_output (with_output ctx "Out" S') (G "X")
            (a :: b :: c :: d :: rest)).
  split; [|split; [|split]].
  - apply GradInferShape_Ok. exists (a :: b :: c :: d :: rest), o'.
    split; [done|]. split; [|done].
    simpl. by rewrite lookup_insert_ne.
  - apply InferShape_Ok.
    exists a, b, c, d, rest, o, groups, axis, x.
    repeat split; try done; try lia.
    + simpl. by rewrite lookup_insert_ne.
    + by apply with_output_commute.
  - simpl. by rewrite lookup_insert_ne.
  - simpl. by rewrite lookup_insert_eq.
Qed.

Lemma forward_and_gradient_commute_witness :
  ∃ c12 : InferShapeContext,
    MaxOutOpGrad_InferShape grad_suffix
      (with_output (both_ctx [2; 6; 3; 3]%Z 2 1) "Out" [2; 3; 3; 3]%Z)
    = Ok c12
    ∧ MaxOutOp_InferShape
        (with_output (both_ctx [2; 6; 3; 3]%Z 2 1) (grad_suffix "X")
           [2; 6; 3; 3]%Z)
      = Ok c12
    ∧ ctx_outputs c12 !! "Out" =
        ctx_outputs
          (with_output (both_ctx [2; 6; 3; 3]%Z 2 1) "Out" [2; 3; 3; 3]%Z)
          !! "Out"
    ∧ ctx_outputs c12 !! grad_suffix "X" =
        ctx_inputs (both_ctx [2; 6; 3; 3]%Z 2 1) !! "X".
Proof.
  apply (forward_and_gradient_commute grad_suffix
           (both_ctx [2; 6; 3; 3]%Z 2 1));
    [discriminate | reflexivity | reflexivity].
Defined.

(** ** The sizes the forward shape inference records *)

Lemma quot_nonneg_facts (c g : Z) :
  (0 ≤ c)%Z → (1 < g)%Z →
  (0 ≤ c ÷ g)%Z ∧ (2 * (c ÷ g) ≤ c)%Z ∧ (c ÷ g ≤ c)%Z
  ∧ (c ÷ g = 0 ↔ c < g)%Z.
Proof.
  intros Hc Hg. rewrite Z.quot_div_nonneg by lia.
  pose proof (Z.div_pos c g Hc ltac:(lia)) as Hq.
  pose proof (Z.mul_div_le c g ltac:(lia)) as Hm.
  split; [done|]. split; [nia|]. split; [nia|].
  rewrite Z.div_small_iff by lia. lia.
Qed.

(** X5. Shapes stay shapes: when every size of [X] is a non-negative
    [int64_t] and the forward shape inference returns, every size it
    records is a non-negative [int64_t] no larger than the input size at
    its position; the size at [axis] is at most half the input size there,
    and it is zero exactly when the input has fewer than [groups]
    channels. *)
Theorem recorded_sizes_bounded (ctx ctx' : InferShapeContext) (S : list Z)
    (groups axis : Z) :
  MaxOutOp_InferShape ctx = Ok ctx' →
  ctx_inputs ctx !! "X" = Some S →
  ctx_attrs ctx !! "groups" = Some groups →
  ctx_attrs ctx !! "axis" = Some axis →
  Forall (λ z, (0 ≤ z)%Z ∧ is_int64 z) S →
  ∃ (S' : list Z) (c c' : Z),
    ctx_outputs ctx' !! "Out" = Some S'
    ∧ S !! Z.to_nat axis = Some c
    ∧ S' !! Z.to_nat axis = Some c'
    ∧ Forall (λ z, (0 ≤ z)%Z ∧ is_int64 z) S'
    ∧ (∀ i z', S' !! i = Some z' → ∃ z, S !! i = Some z ∧ (z' ≤ z)%Z)
    ∧ (2 * c' ≤ c)%Z
    ∧ (c' = 0 ↔ c < groups)%Z.
Proof.
  intros (a & b & c & d & rest & o & g & ax & x
          & HX & HOut & Hg & Ha & Hgt & Hax & Hx & ->)%InferShape_Ok
         HX' Hg' Ha' Hall.
  rewrite HX in HX'. injection HX' as <-.
  rewrite Hg in Hg'. injection Hg' as <-.
  rewrite Ha in Ha'. injection Ha' as <-.
  assert (Hx4 : (a :: b :: c :: d :: rest) !! Z.to_nat ax = Some x)
    by (by rewrite lookup_first_four by lia).
  assert (Hxp : (0 ≤ x)%Z ∧ is_int64 x).
  { rewrite Forall_lookup in Hall. by apply (Hall (Z.to_nat ax)). }
  destruct Hxp as [Hx0 Hxi].
  rewrite int64_div_quot by (done || lia).
  destruct (quot_nonneg_facts x g Hx0 Hgt) as (Hq0 & Hq2 & Hqle & Hqz).
  assert (Hfour : Forall (λ z, (0 ≤ z)%Z ∧ is_int64 z) [a; b; c; d]).
  { apply Forall_lookup. intros i z Hz. rewrite Forall_lookup in Hall.
    apply (Hall i). rewrite lookup_first_four; [done|].
    apply lookup_lt_Some in Hz. simpl in Hz. lia. }
  exists (<[Z.to_nat ax := (x ÷ g)%Z]> [a; b; c; d]), x, (x ÷ g)%Z.
  split; [simpl; apply lookup_insert_eq|]. split; [done|].
  split; [apply list_lookup_insert_eq; simpl; lia|].
  split; [|split; [|split; [done|done]]].
  - apply Forall_insert; [done|]. split; [done|].
    unfold is_int64, int64_min, int64_max in *. lia.
  - intros i z' Hz'.
    assert (Hi : i < 4).
    { apply lookup_lt_Some in Hz'. by rewrite length_insert in Hz'. }
    destruct (decide (i = Z.to_nat ax)) as [->|Hne].
    + rewrite list_lookup_insert_eq in Hz' by (simpl; lia).
      injection Hz' as <-. by exists x.
    + rewrite list_lookup_insert_ne in Hz' by done.
      exists z'. split; [by rewrite lookup_first_four|lia].
Qed.

Lemma recorded_sizes_bounded_witness :
  ∃ (S' : list Z) (c c' : Z),
    ctx_outputs (with_output (op_ctx [5; 3; 7; 2]%Z 4 1) "Out" [5; 0; 7; 2]%Z)
      !! "Out" = Some S'
    ∧ [5; 3; 7; 2]%Z !! Z.to_nat 1 = Some c
    ∧ S' !! Z.to_nat 1 = Some c'
    ∧ Forall (λ z, (0 ≤ z)%Z ∧ is_int64 z) S'
    ∧ (∀ i z', S' !! i = Some z' →
         ∃ z, [5; 3; 7; 2]%Z !! i = Some z ∧ (z' ≤ z)%Z)
    ∧ (2 * c' ≤ c)%Z
    ∧ (c' = 0 ↔ c < 4)%Z.
Proof.
  apply (recorded_sizes_bounded (op_ctx [5; 3; 7; 2]%Z 4 1)
           (with_output (op_ctx [5; 3; 7; 2]%Z 4 1) "Out" [5; 0; 7; 2]%Z)
           [5; 3; 7; 2]%Z 4 1);
    try reflexivity.
  repeat constructor; try lia; apply is_int64_small; simpl; lia.
Defined.

Lemma numel_four (a b c d : Z) : numel [a; b; c; d] = (a * b * c * d)%Z.
Proof. unfold numel. simpl. lia. Qed.

Lemma scaled_product_iff (g q x P : Z) :
  (0 < P)%Z → (g * (q * P) = x * P ↔ g * q = x)%Z.
Proof. intros HP. split; intros H; nia. Qed.

(** X6. The element count of the recorded shape: for a rank-4 input with
    positive sizes, [groups] times the element count of the shape recorded
    for [Out] never exceeds the element count of [X], and equals it exactly
    when [groups] divides the size at [axis]. *)
Theorem recorded_element_count (ctx ctx' : InferShapeContext) (S : list Z)
    (groups axis c : Z) :
  MaxOutOp_InferShape ctx = Ok ctx' →
  ctx_inputs ctx !! "X" = Some S →
  ctx_attrs ctx !! "groups" = Some groups →
  ctx_attrs ctx !! "axis" = Some axis →
  length S = 4 →
  Forall (λ z, (0 < z)%Z ∧ is_int64 z) S →
  S !! Z.to_nat axis = Some c →
  ∃ S' : list Z,
    ctx_outputs ctx' !! "Out" = Some S'
    ∧ (groups * numel S' ≤ numel S)%Z
    ∧ (groups * numel S' = numel S ↔ c `rem` groups = 0)%Z.
Proof.
  intros (a & b & c0 & d & rest & o & g & ax & x
          & HX & HOut & Hg & Ha & Hgt & Hax & Hx & ->)%InferShape_Ok
         HX' Hg' Ha' Hlen Hall Hc.
  rewrite HX in HX'. injection HX' as <-.
  rewrite Hg in Hg'. injection Hg' as <-.
  rewrite Ha in Ha'. injection Ha' as <-.
  destruct rest; [|discriminate Hlen].
  rewrite Hc in Hx. injection Hx as <-.
  assert (Hcp : (0 < c)%Z ∧ is_int64 c).
  { rewrite Forall_lookup in Hall. by apply (Hall (Z.to_nat ax)). }
  destruct Hcp as [Hc0 Hci].
  rewrite int64_div_quot by (done || lia).
  exists (<[Z.to_nat ax := (c ÷ g)%Z]> [a; b; c0; d]).
  split; [simpl; apply lookup_insert_eq|].
  apply Forall_cons in Hall as [[Ha0 _] Hall].
  apply Forall_cons in Hall as [[Hb0 _] Hall].
  apply Forall_cons in Hall as [[Hc00 _] Hall].
  apply Forall_cons in Hall as [[Hd0 _] _].
  destruct (quot_nonneg_facts c g ltac:(lia) Hgt) as (Hq0 & _ & _ & _).
  pose proof (Z.quot_rem' c g) as Hqr.
  pose proof (Z.rem_bound_pos c g ltac:(lia) ltac:(lia)) as Hrb.
  assert (Hdiv : (g * (c ÷ g) = c ↔ c `rem` g = 0)%Z) by lia.
  assert (Hle : (g * (c ÷ g) ≤ c)%Z) by lia.
  rewrite <- Hdiv.
  assert (Hcase : ax = 0%Z ∨ ax = 1%Z ∨ ax = 2%Z ∨ ax = 3%Z) by lia.
  destruct Hcase as [->|[->|[->| ->]]]; simpl in Hc; injection Hc as ->;
    change (<[Z.to_nat 0 := ?v]> [?p; ?q; ?r; ?t]) with [v; q; r; t];
    change (<[Z.to_nat 1 := ?v]> [?p; ?q; ?r; ?t]) with [p; v; r; t];
    change (<[Z.to_nat 2 := ?v]> [?p; ?q; ?r; ?t]) with [p; q; v; t];
    change (<[Z.to_nat 3 := ?v]> [?p; ?q; ?r; ?t]) with [p; q; r; v];
    rewrite !numel_four.
  - assert (HP : (0 < b * c0 * d)%Z) by nia.
    pose proof (scaled_product_iff g (c ÷ g) c (b * c0 * d) HP).
    split; [nia|]. split; intros; nia.
  - assert (HP : (0 < a * c0 * d)%Z) by nia.
    pose proof (scaled_product_iff g (c ÷ g) c (a * c0 * d) HP).
    split; [nia|]. split; intros; nia.
  - assert (HP : (0 < a * b * d)%Z) by nia.
    pose proof (scaled_product_iff g (c ÷ g) c (a * b * d) HP).
    split; [nia|]. split; intros; nia.
  - assert (HP : (0 < a * b * c0)%Z) by nia.
    pose proof (scaled_product_iff g (c ÷ g) c (a * b * c0) HP).
    split; [nia|]. split; intros; nia.
Qed.

Lemma recorded_element_count_witness :
  ∃ S' : list Z,
    ctx_outputs (with_output (op_ctx [2; 6; 3; 3]%Z 4 1) "Out" [2; 1; 3; 3]%Z)
      !! "Out" = Some S'
    ∧ (4 * numel S' ≤ numel [2; 6; 3; 3])%Z
    ∧ (4 * numel S' = numel [2; 6; 3; 3] ↔ 6 `rem` 4 = 0)%Z.
Proof.
  apply (recorded_element_count (op_ctx [2; 6; 3; 3]%Z 4 1)
           (with_output (op_ctx [2; 6; 3; 3]%Z 4 1) "Out" [2; 1; 3; 3]%Z)
           [2; 6; 3; 3]%Z 4 1 6);
    try reflexivity.
  repeat constructor; try lia; apply is_int64_small; simpl; lia.
Defined.

(** ** Configuring the operator *)

(** What the attribute check of the declaration of [Make] computes. *)
Lemma check_attrs_Make (user : gmap string Z) :
  check_attrs (proto_attrs Make) user =
    match user !! "groups", user !! "axis" with
    | None, _ => NotFound "groups"
    | Some _, Some _ => Ok user
    | Some _, None => Ok (<["axis" := 1%Z]> user)
    end.
Proof.
  simpl. unfold check_attr. simpl.
  destruct (user !! "groups") as [g|]; simpl; [|done].
  by destruct (user !! "axis").
Qed.

(** X7. Configuration from the declaration of [Make]: it fails exactly when
    [groups] is not given; otherwise every attribute the user gives is kept
    as given, [axis] included, and the only attribute ever added is
    [axis = 1], when [axis] is not given. *)
Theorem configure_attributes (inputs outputs : gmap string (list Z))
    (user : gmap string Z) :
  (is_Ok (configure inputs outputs user) = false
   ↔ user !! "groups" = None)
  ∧ (user !! "groups" = None →
     configure inputs outputs user = NotFound "groups")
  ∧ ∀ ctx, configure inputs outputs user = Ok ctx →
      ctx_inputs ctx = inputs
      ∧ ctx_outputs ctx = outputs
      ∧ (∀ k v, user !! k = Some v → ctx_attrs ctx !! k = Some v)
      ∧ (∀ k v, ctx_attrs ctx !! k = Some v →
           user !! k = Some v
           ∨ (k = "axis" ∧ v = 1%Z ∧ user !! "axis" = None)).
Proof.
  unfold configure. rewrite check_attrs_Make.
  destruct (user !! "groups") as [g|] eqn:Hg; cycle 1.
  { simpl. split; [done|]. split; [done|]. by intros ctx. }
  destruct (user !! "axis") as [a|] eqn:Ha; simpl.
  - split; [done|]. split; [done|]. intros ctx [= <-]. simpl.
    repeat split; auto.
  - split; [done|]. split; [done|]. intros ctx [= <-]. simpl.
    split; [done|]. split; [done|]. split.
    + intros k v Hk. rewrite lookup_insert_ne; [done|]. congruence.
    + intros k v. rewrite lookup_insert. case_decide as Hk.
      * intros [= <-]. subst k. by right.
      * by left.
Qed.

Lemma configure_attributes_witness :
  configure ∅ ∅ {[ "axis" := 3%Z ]} = NotFound "groups".
Proof.
  destruct (configure_attributes ∅ ∅ {[ "axis" := 3%Z ]}) as (_ & H & _).
  apply H. reflexivity.
Defined.

(** The only names the forward shape inference can fail to find are its two
    attributes. *)
Lemma InferShape_NotFound (ctx : InferShapeContext) (name : string) :
  MaxOutOp_InferShape ctx = NotFound name →
  (name = "groups" ∧ ctx_attrs ctx !! "groups" = None)
  ∨ (name = "axis" ∧ ctx_attrs ctx !! "axis" = None).
Proof.
  destruct (ctx_inputs ctx !! "X") as [S|] eqn:HX;
    [|by rewrite InferShape_no_input].
  destruct (ctx_outputs ctx !! "Out") as [o|] eqn:HOut;
    [|by rewrite InferShape_no_output by eauto].
  unfold MaxOutOp_InferShape, HasInput, HasOutput, GetInputDim,
    Attrs_Get_int, SetOutputDim, PADDLE_ENFORCE_EQ, PADDLE_ENFORCE_GT.
  rewrite HX, HOut. simpl.
  destruct (ctx_attrs ctx !! "groups") as [groups|] eqn:Hg; simpl;
    [|intros [= <-]; by left].
  destruct (ctx_attrs ctx !! "axis") as [axis|] eqn:Ha; simpl;
    [|intros [= <-]; by right].
  case_bool_decide; simpl; [|done].
  repeat match goal with
    | |- context [ddim_at ?d ?i] =>
        destruct (ddim_at_cases d i) as [(? & -> & _ & _)| ->]; simpl
    | |- context [vector_set ?v ?i ?x] =>
        destruct (vector_set_cases v i x) as [[-> _]|[-> _]]; simpl
    end; done.
Qed.

(** X8. In a context that configuration has returned, the forward shape
    inference always finds its attributes: it returns, throws on one of its
    own checks, or ends in an access out of range, and never fails on a
    missing name. *)
Theorem configured_attributes_are_found
    (inputs outputs : gmap string (list Z)) (user : gmap string Z)
    (ctx : InferShapeContext) (name : string) :
  configure inputs outputs user = Ok ctx →
  MaxOutOp_InferShape ctx ≠ NotFound name.
Proof.
  unfold configure. rewrite check_attrs_Make.
  destruct (user !! "groups") as [g|] eqn:Hg; [|done].
  destruct (user !! "axis") as [a|] eqn:Ha; simpl; intros [= <-] Hnf;
    apply InferShape_NotFound in Hnf as [[_ Hn]|[_ Hn]]; simpl in Hn;
    try congruence.
  - rewrite lookup_insert_ne in Hn by done. congruence.
  - by rewrite lookup_insert_eq in Hn.
Qed.

Lemma configured_attributes_are_found_witness :
  MaxOutOp_InferShape
    {| ctx_inputs := {[ "X" := [8; 6; 5; 5]%Z ]};
       ctx_outputs := {[ "Out" := [] ]};
       ctx_attrs := <["axis" := 1%Z]> {[ "groups" := 3%Z ]} |}
  ≠ NotFound "axis".
Proof.
  apply (configured_attributes_are_found {[ "X" := [8; 6; 5; 5]%Z ]}
           {[ "Out" := [] ]} {[ "groups" := 3%Z ]}).
  reflexivity.
Defined.

(** X9. The default of [axis] selects the channels of an NCHW input: an
    operator configured with [groups > 1] alone, its [X] bound to a shape
    (N, C, H, W) of [int64_t] sizes and its [Out] bound, infers for [Out]
    the shape (N, C / groups, H, W). *)
Theorem default_axis_divides_channels
    (inputs outputs : gmap string (list Z)) (user : gmap string Z)
    (N C H W groups : Z) (o : list Z) :
  user !! "groups" = Some groups →
  user !! "axis" = None →
  (1 < groups)%Z →
  inputs !! "X" = Some [N; C; H; W] →
  outputs !! "Out" = Some o →
  is_int64 C →
  ∃ ctx ctx', configure inputs outputs user = Ok ctx
    ∧ MaxOutOp_InferShape ctx = Ok ctx'
    ∧ ctx_outputs ctx' !! "Out" = Some [N; (C ÷ groups)%Z; H; W].
Proof.
  intros Hg Ha Hgt HX HOut HC.
  unfold configure. rewrite check_attrs_Make, Hg, Ha. simpl.
  eexists. eexists. split; [done|].
  rewrite (InferShape_rank4 _ [N; C; H; W] o groups 1 C); try done.
  - split; [done|]. simpl. apply lookup_insert_eq.
  - simpl. rewrite lookup_insert_ne; [done|]. discriminate.
  - simpl. apply lookup_insert_eq.
Qed.

Lemma default_axis_divides_channels_witness :
  ∃ ctx ctx',
    configure {[ "X" := [8; 6; 5; 5]%Z ]} {[ "Out" := [] ]}
      {[ "groups" := 3%Z ]} = Ok ctx
    ∧ MaxOutOp_InferShape ctx = Ok ctx'
    ∧ ctx_outputs ctx' !! "Out" = Some [8; (6 ÷ 3)%Z; 5; 5]%Z.
Proof.
  apply (default_axis_divides_channels {[ "X" := [8; 6; 5; 5]%Z ]}
           {[ "Out" := [] ]} {[ "groups" := 3%Z ]} 8 6 5 5 3 []);
    try reflexivity; try lia.
  apply is_int64_small; simpl; lia.
Defined.

(** * The build configuration of the fused operators *)

(** The libraries the script builds are those of the generic sweep followed
    by the ones it builds on an empty directory. *)
Lemma op_libs_split (dir : list string) (gpu : bool) (v : N) :
  op_libs (CMakeLists dir gpu v) =
    filter (λ o, o ∉ EXCLUDES) dir ++ op_libs (CMakeLists [] gpu v).
Proof.
  unfold CMakeLists.
  destruct gpu, (negb (VERSION_LESS v 7100)); simpl;
    rewrite <- ?app_assoc; simpl; by rewrite ?app_nil_r.
Qed.

(** What the script builds apart from the sweep, case by case. *)
Lemma explicit_libs_cases (gpu : bool) (v : N) :
  op_libs (CMakeLists [] gpu v) =
    if gpu then
      if (v <? 7100)%N then
        [ "fusion_transpose_flatten_concat_op";
          "fused_fc_elementwise_layernorm_op";
          "multihead_matmul_op" ]
      else EXCLUDES
    else [].
Proof.
  unfold CMakeLists, VERSION_LESS. by destruct gpu, (v <? 7100)%N.
Qed.

Lemma explicit_libs_excluded (gpu : bool) (v : N) (o : string) :
  o ∈ op_libs (CMakeLists [] gpu v) → o ∈ EXCLUDES.
Proof.
  rewrite explicit_libs_cases. unfold EXCLUDES.
  destruct gpu, (v <? 7100)%N; rewrite ?elem_of_cons, ?elem_of_nil; tauto.
Qed.

Lemma explicit_libs_NoDup (gpu : bool) (v : N) :
  NoDup (op_libs (CMakeLists [] gpu v)).
Proof.
  rewrite explicit_libs_cases. unfold EXCLUDES.
  destruct gpu, (v <? 7100)%N;
    repeat (apply NoDup_cons; split;
            [rewrite ?elem_of_cons, ?elem_of_nil; intros H;
             repeat destruct H as [H|H]; discriminate || done|]);
    apply NoDup_nil_2.
Qed.

(** X10. No operator library is built twice: on a directory that lists each
    of its libraries once, whatever the GPU flag and the cuDNN version, the
    libraries built by the sweep and by the explicit calls are all
    different. *)
Theorem no_library_built_twice (dir : list string) (WITH_GPU : bool)
    (CUDNN_VERSION : N) :
  NoDup dir → NoDup (op_libs (CMakeLists dir WITH_GPU CUDNN_VERSION)).
Proof.
  intros Hdir. rewrite op_libs_split. apply NoDup_app.
  split; [by apply NoDup_filter|]. split; [|apply explicit_libs_NoDup].
  intros o [Hex _]%list_elem_of_filter Hin.
  by apply Hex, (explicit_libs_excluded WITH_GPU CUDNN_VERSION).
Qed.

Lemma no_library_built_twice_witness :
  NoDup (op_libs (CMakeLists
                    ["fusion_gru_op"; "conv_fusion_op"; "multihead_matmul_op"]
                    true 7605)).
Proof.
  apply (no_library_built_twice
           ["fusion_gru_op"; "conv_fusion_op"; "multihead_matmul_op"]
           true 7605).
  repeat (apply NoDup_cons; split;
          [rewrite ?elem_of_cons, ?elem_of_nil; intros H;
           repeat destruct H as [H|H]; discriminate || done|]).
  apply NoDup_nil_2.
Defined.

(** X11. An excluded library is built exactly when GPU support is enabled
    and, for the two libraries that need cuDNN 7.1, the cuDNN version is at
    least 7100; whether the directory lists it plays no role. *)
Theorem excluded_library_built_iff (dir : list string) (WITH_GPU : bool)
    (CUDNN_VERSION : N) (o : string) :
  o ∈ EXCLUDES →
  o ∈ op_libs (CMakeLists dir WITH_GPU CUDNN_VERSION)
  ↔ WITH_GPU = true ∧ (needs_cudnn7 o → (7100 ≤ CUDNN_VERSION)%N).
Proof.
  intros Ho. rewrite op_libs_split, elem_of_app, list_elem_of_filter.
  rewrite explicit_libs_cases. unfold needs_cudnn7.
  destruct (N.ltb_spec CUDNN_VERSION 7100) as [Hv|Hv].
  - destruct WITH_GPU.
    + split.
      * intros [[Hex _]|Hin]; [done|]. split; [done|].
        intros [-> | ->]; rewrite !elem_of_cons, elem_of_nil in Hin;
          repeat destruct Hin as [Hin|Hin]; discriminate || done.
      * intros [_ Hneed]. right. unfold EXCLUDES in Ho.
        rewrite !elem_of_cons, elem_of_nil in Ho.
        rewrite !elem_of_cons, elem_of_nil.
        destruct Ho as [->|[->|[->|[->|[->|[]]]]]]; auto;
          exfalso; (assert (7100 ≤ CUDNN_VERSION)%N by auto); lia.
    + split; [|by intros [? _]].
      intros [[Hex _]|Hin]; [done|]. by apply elem_of_nil in Hin.
  - destruct WITH_GPU.
    + split; [by intros _|]. intros _. by right.
    + split; [|by intros [? _]].
      intros [[Hex _]|Hin]; [done|]. by apply elem_of_nil in Hin.
Qed.

Lemma excluded_library_built_iff_witness :
  "conv_fusion_op" ∈ op_libs (CMakeLists ["conv_fusion_op"] true 7000)
  ↔ true = true ∧ (needs_cudnn7 "conv_fusion_op" → (7100 ≤ 7000)%N).
Proof.
  apply (excluded_library_built_iff ["conv_fusion_op"] true 7000
           "conv_fusion_op").
  apply elem_of_cons. by left.
Defined.

(** X12. Configuration only adds libraries: every library of the directory
    that is not excluded is built under every configuration; what a build
    without GPU support builds, a build with it builds too; and with GPU
    support, what is built for one cuDNN version is built for every later
    one. *)
Theorem build_grows_with_configuration (dir : list string) (gpu : bool)
    (v v' : N) :
  (∀ o, o ∈ dir → o ∉ EXCLUDES → o ∈ op_libs (CMakeLists dir gpu v))
  ∧ op_libs (CMakeLists dir false v) ⊆ op_libs (CMakeLists dir gpu v')
  ∧ ((v ≤ v')%N →
     op_libs (CMakeLists dir gpu v) ⊆ op_libs (CMakeLists dir gpu v')).
Proof.
  split; [|split].
  - intros o Hdir Hex. rewrite op_libs_split, elem_of_app. left.
    by apply list_elem_of_filter.
  - intros o.
    rewrite (op_libs_split dir false v), (op_libs_split dir gpu v').
    rewrite !elem_of_app, !explicit_libs_cases.
    intros [H|H]; [by left | by apply elem_of_nil in H].
  - intros Hv o.
    rewrite (op_libs_split dir gpu v), (op_libs_split dir gpu v').
    rewrite !elem_of_app, !explicit_libs_cases.
    intros [H|H]; [by left|]. right.
    destruct gpu; [|done].
    destruct (N.ltb_spec v 7100), (N.ltb_spec v' 7100); try done; try lia.
    unfold EXCLUDES.
    repeat (apply elem_of_cons in H as [->|H]);
      try (by apply elem_of_nil in H);
      repeat first [apply list_elem_of_here | apply list_elem_of_further].
Qed.

Lemma build_grows_with_configuration_witness :
  op_libs (CMakeLists ["fusion_gru_op"; "conv_fusion_op"] true 7000)
  ⊆ op_libs (CMakeLists ["fusion_gru_op"; "conv_fusion_op"] true 7605).
Proof.
  destruct (build_grows_with_configuration
              ["fusion_gru_op"; "conv_fusion_op"] true 7000 7605)
    as (_ & _ & H).
  apply H. lia.
Defined.

(** * Further properties of the forward values *)

Lemma in_index_split (g s i j k : nat) :
  in_index g s i j k = s * (g * i + k) + j.
Proof. unfold in_index. lia. Qed.

Lemma in_index_read (g s Co i j k : nat) :
  i < Co → j < s → k < g → in_index g s i j k < g * s * Co.
Proof.
  intros Hi Hj Hk. rewrite in_index_split.
  assert (H1 : g * i + k + 1 ≤ g * Co) by nia.
  assert (H2 : s * (g * i + k + 1) ≤ s * (g * Co))
    by by apply Nat.mul_le_mono_l.
  replace (s * (g * i + k + 1)) with (s * (g * i + k) + s) in H2 by lia.
  replace (g * s * Co) with (s * (g * Co)) by lia.
  lia.
Qed.

Lemma split_index_unique (b q r q' r' : nat) :
  r < b → r' < b → b * q + r = b * q' + r' → q = q' ∧ r = r'.
Proof.
  intros Hr Hr' H.
  assert (Hq : q = q').
  { rewrite (Nat.div_unique (b * q + r) b q r Hr eq_refl).
    rewrite (Nat.div_unique (b * q + r) b q' r' Hr' H). done. }
  subst q'. lia.
Qed.

(** X13. The groups partition the input: two different triples [(i, j, k)]
    with [j < s] and [k < groups] read different input positions, and every
    position below [groups * s * n] is read for exactly such a triple with
    [i < n]. Each input element so feeds one output element only. *)
Theorem groups_partition_the_input (g s n : nat) :
  (∀ i j k i' j' k',
     j < s → j' < s → k < g → k' < g →
     in_index g s i j k = in_index g s i' j' k' →
     i = i' ∧ j = j' ∧ k = k')
  ∧ (∀ p, p < g * s * n →
       ∃ i j k, i < n ∧ j < s ∧ k < g ∧ p = in_index g s i j k).
Proof.
  split.
  - intros i j k i' j' k' Hj Hj' Hk Hk'. rewrite !in_index_split. intros H.
    destruct (split_index_unique s _ j _ j' Hj Hj' H) as [Hq ->].
    destruct (split_index_unique g i k i' k' Hk Hk' Hq) as [-> ->].
    done.
  - intros p Hp.
    assert (Hg : g ≠ 0) by (intros ->; simpl in Hp; lia).
    assert (Hs : s ≠ 0) by (intros ->; rewrite Nat.mul_0_r in Hp; simpl in Hp; lia).
    pose proof (Nat.div_mod_eq p s) as Hps.
    pose proof (Nat.mod_upper_bound p s Hs) as Hj.
    pose proof (Nat.div_mod_eq (p `div` s) g) as Hqg.
    pose proof (Nat.mod_upper_bound (p `div` s) g Hg) as Hk.
    exists ((p `div` s) `div` g), (p `mod` s), ((p `div` s) `mod` g).
    split; [|split; [done|split; [done|]]].
    + apply Nat.Div0.div_lt_upper_bound, Nat.Div0.div_lt_upper_bound. lia.
    + rewrite in_index_split. rewrite <- Hqg. done.
Qed.

Lemma groups_partition_the_input_witness :
  ∃ i j k, i < 2 ∧ j < 3 ∧ k < 2 ∧ 10 = in_index 2 3 i j k.
Proof.
  destruct (groups_partition_the_input 2 3 2) as [_ H].
  apply (H 10). simpl. lia.
Defined.

Lemma mapM_seq_ext {B} (f f' : nat → option B) (n : nat) :
  (∀ k, k < n → f k = f' k) → mapM f (seq 0 n) = mapM f' (seq 0 n).
Proof.
  intros Hext.
  assert (H : Forall (λ k, f k = f' k) (seq 0 n))
    by (apply Forall_seq; intros k Hk; apply Hext; lia).
  induction H as [|k l Hk _ IH]; [done|]. simpl. by rewrite Hk, IH.
Qed.

(** X14. The forward values depend on the inputs below
    [groups * s * (num_channels / groups)] only: two inputs of the same
    length that agree there give the same values. When [groups] does not
    divide the number of channels, the inputs from that index on are never
    read. *)
Theorem trailing_inputs_not_read (x x' : list spec_float)
    (num_channels groups : nat) :
  length x = length x' →
  (∀ p, p < groups * (length x `div` num_channels)
              * (num_channels `div` groups) →
        x !! p = x' !! p) →
  maxout_values x num_channels groups = maxout_values x' num_channels groups.
Proof.
  intros Hlen Hagree. unfold maxout_values.
  destruct (decide (num_channels = 0)); [done|]. simpl.
  rewrite <- Hlen. f_equal.
  apply mapM_seq_ext. intros i Hi.
  apply mapM_seq_ext. intros j Hj.
  unfold y, candidates. f_equal.
  apply mapM_seq_ext. intros k Hk.
  apply Hagree. by apply in_index_read.
Qed.

Lemma trailing_inputs_not_read_witness :
  maxout_values [f_1_0; f_3_0; f_2_0] 3 2 =
  maxout_values [f_1_0; f_3_0; f_5_5] 3 2.
Proof.
  apply (trailing_inputs_not_read [f_1_0; f_3_0; f_2_0]
           [f_1_0; f_3_0; f_5_5] 3 2); [reflexivity|].
  intros p Hp. simpl in Hp. destruct p as [|[|p]]; [reflexivity..|lia].
Defined.

(** Every position of the output is the position of one pair [(i, j)]. *)
Lemma out_index_split (s Co q : nat) :
  q < s * Co → ∃ i j, i < Co ∧ j < s ∧ q = s * i + j.
Proof.
  intros Hq.
  assert (Hs : s ≠ 0) by (intros ->; simpl in Hq; lia).
  exists (q `div` s), (q `mod` s).
  split; [by apply Nat.Div0.div_lt_upper_bound|].
  split; [by apply Nat.mod_upper_bound|]. apply Nat.div_mod_eq.
Qed.

Lemma maxout_values_no_groups (x : list spec_float) (C : nat)
    (out : list spec_float) :
  maxout_values x C 0 = Some out → out = [].
Proof.
  unfold maxout_values. destruct (decide (C = 0)); [done|].
  rewrite Nat.div_0_r. simpl. by intros [= <-].
Qed.

(** X15. The forward values are monotone in the input: if no value of the
    second input is below the value of the first at the same position, and
    the second input holds no NaN, then no value of the second output is
    below the value of the first output at the same position. *)
Theorem forward_values_monotone (x x' out out' : list spec_float)
    (num_channels groups : nat) :
  length x = length x' →
  no_nan x' →
  (∀ p v v', x !! p = Some v → x' !! p = Some v' → SFltb v' v = false) →
  maxout_values x num_channels groups = Some out →
  maxout_values x' num_channels groups = Some out' →
  ∀ q m m', out !! q = Some m → out' !! q = Some m' → SFltb m' m = false.
Proof.
  intros Hlen Hnan Hle Hout Hout' q m m' Hm Hm'.
  destruct (decide (groups = 0)) as [->|Hg].
  { apply maxout_values_no_groups in Hout as ->. by rewrite lookup_nil in Hm. }
  assert (HC : 0 < num_channels).
  { unfold maxout_values in Hout.
    destruct (decide (num_channels = 0)); [done | lia]. }
  destruct (maxout_values_spec x num_channels groups HC ltac:(lia))
    as (o1 & Ho1 & Hl1 & Hlk1).
  destruct (maxout_values_spec x' num_channels groups HC ltac:(lia))
    as (o2 & Ho2 & Hl2 & Hlk2).
  rewrite Hout in Ho1. injection Ho1 as <-.
  rewrite Hout' in Ho2. injection Ho2 as <-.
  rewrite <- Hlen in Hlk2.
  set (s := length x `div` num_channels) in *.
  destruct (out_index_split s (num_channels `div` groups) q)
    as (i & j & Hi & Hj & ->).
  { rewrite <- Hl1. by eapply lookup_lt_Some. }
  destruct (Hlk1 i j Hi Hj) as [_ Hy1]. rewrite Hm in Hy1.
  destruct (Hlk2 i j Hi Hj) as [_ Hy2]. rewrite Hm' in Hy2.
  assert (Hrange : ∀ k, k < groups → in_index groups s i j k < length x)
    by (intros k Hk; by apply in_index_lt).
  destruct (y_elem x groups s i j m Hrange (eq_sym Hy1)) as (k & Hk & Hxk).
  assert (Hrange' : ∀ k, k < groups → in_index groups s i j k < length x')
    by (intros k' Hk'; rewrite <- Hlen; by apply Hrange).
  destruct (y_spec x' groups s i j m' Hnan Hrange' (eq_sym Hy2))
    as [_ Hub].
  destruct (Hub k Hk) as (v' & Hv' & Hmv').
  assert (Hv'nan : is_nan v' = false).
  { unfold no_nan in Hnan. rewrite Forall_lookup in Hnan. by eapply Hnan. }
  apply (not_below_trans m v' m' Hv'nan); [|done].
  by apply (Hle (in_index groups s i j k)).
Qed.

Lemma forward_values_monotone_witness : SFltb f_3_5 f_3_0 = false.
Proof.
  apply (forward_values_monotone [f_1_0; f_3_0] [f_3_5; f_3_0]
           [f_3_0] [f_3_5] 2 2) with (q := 0);
    try reflexivity.
  - repeat constructor.
  - intros p v v'. destruct p as [|[|p]]; simpl; intros [= <-] [= <-];
      reflexivity.
Defined.

Lemma op_ctx_lookups (S : list Z) (groups axis : Z) :
  ctx_inputs (op_ctx S groups axis) !! "X" = Some S
  ∧ ctx_outputs (op_ctx S groups axis) !! "Out" = Some []
  ∧ ctx_attrs (op_ctx S groups axis) !! "groups" = Some groups
  ∧ ctx_attrs (op_ctx S groups axis) !! "axis" = Some axis.
Proof.
  unfold op_ctx. simpl.
  split; [apply lookup_singleton_eq|].
  split; [apply lookup_singleton_eq|].
  split; [apply lookup_insert_eq|].
  rewrite lookup_insert_ne by done. apply lookup_singleton_eq.
Qed.

Lemma length_of_values (n C g P : Z) (len : nat) :
  (0 < C)%Z → (1 < g)%Z → Z.of_nat len = n → n = (P * C)%Z →
  Z.of_nat (len `div` Z.to_nat C * (Z.to_nat C `div` Z.to_nat g))
  = (P * (C ÷ g))%Z.
Proof.
  intros HC Hg Hlen Hn.
  rewrite Nat2Z.inj_mul, !Nat2Z.inj_div, !Z2Nat.id by lia.
  rewrite Hlen, Hn, Z.div_mul by lia.
  by rewrite Z.quot_div_nonneg by lia.
Qed.

(** X16. The forward values fill the inferred shape: for a tensor of rank 4
    with positive sizes that holds as many elements as its shape counts,
    [groups > 1] and [axis] in range, the forward call returns a tensor
    whose shape is the one the shape inference records for [Out] and whose
    number of values is the element count of that shape, whether or not
    [groups] divides the size at [axis]. *)
Theorem forward_fills_inferred_shape (X : Tensor) (groups axis : Z) :
  length (dims X) = 4 →
  Forall (λ z, (0 < z)%Z ∧ is_int64 z) (dims X) →
  Z.of_nat (length (data X)) = numel (dims X) →
  (1 < groups)%Z →
  (0 ≤ axis < 4)%Z →
  ∃ (Y : Tensor) (ctx' : InferShapeContext),
    MaxOutForward X groups axis = Some Y
    ∧ MaxOutOp_InferShape (op_ctx (dims X) groups axis) = Ok ctx'
    ∧ ctx_outputs ctx' !! "Out" = Some (dims Y)
    ∧ Z.of_nat (length (data Y)) = numel (dims Y).
Proof.
  destruct X as [S x]. simpl. intros Hlen Hall Hsize Hgt Hax.
  destruct (op_ctx_lookups S groups axis) as (HX & HOut & Hg & Ha).
  destruct (lookup_lt_is_Some_2 S (Z.to_nat axis)) as [C HC]; [lia|].
  assert (HCp : (0 < C)%Z ∧ is_int64 C).
  { rewrite Forall_lookup in Hall. by apply (Hall (Z.to_nat axis)). }
  destruct HCp as [HC0 HCi].
  pose proof (InferShape_rank4 (op_ctx S groups axis) S [] groups axis C
                HX HOut Hg Ha Hlen Hgt Hax HC HCi) as Hrun.
  destruct (maxout_values_spec x (Z.to_nat C) (Z.to_nat groups)
              ltac:(lia) ltac:(lia)) as (out & Hvals & Hl & _).
  exists {| dims := <[Z.to_nat axis := (C ÷ groups)%Z]> S; data := out |}.
  eexists. split; [|split; [exact Hrun|split]].
  - unfold MaxOutForward. simpl. rewrite Hrun. simpl.
    rewrite lookup_insert_eq. simpl. rewrite HC. simpl.
    by rewrite Hvals.
  - simpl. apply lookup_insert_eq.
  - simpl. rewrite Hl.
    destruct S as [|a [|b [|c [|d [|]]]]]; try discriminate Hlen.
    rewrite numel_four in Hsize.
    assert (Hcase : axis = 0%Z ∨ axis = 1%Z ∨ axis = 2%Z ∨ axis = 3%Z)
      by lia.
    destruct Hcase as [->|[->|[->| ->]]]; simpl in HC; injection HC as ->;
      change (<[Z.to_nat 0 := ?v]> [?p; ?q; ?r; ?t]) with [v; q; r; t];
      change (<[Z.to_nat 1 := ?v]> [?p; ?q; ?r; ?t]) with [p; v; r; t];
      change (<[Z.to_nat 2 := ?v]> [?p; ?q; ?r; ?t]) with [p; q; v; t];
      change (<[Z.to_nat 3 := ?v]> [?p; ?q; ?r; ?t]) with [p; q; r; v];
      rewrite numel_four.
    + rewrite (length_of_values (C * b * c * d) C groups (b * c * d));
        (done || lia).
    + rewrite (length_of_values (a * C * c * d) C groups (a * c * d));
        (done || lia).
    + rewrite (length_of_values (a * b * C * d) C groups (a * b * d));
        (done || lia).
    + rewrite (length_of_values (a * b * c * C) C groups (a * b * c));
        (done || lia).
Qed.

Lemma forward_fills_inferred_shape_witness :
  ∃ (Y : Tensor) (ctx' : InferShapeContext),
    MaxOutForward scenario_input 2 1 = Some Y
    ∧ MaxOutOp_InferShape (op_ctx (dims scenario_input) 2 1) = Ok ctx'
    ∧ ctx_outputs ctx' !! "Out" = Some (dims Y)
    ∧ Z.of_nat (length (data Y)) = numel (dims Y).
Proof.
  apply (forward_fills_inferred_shape scenario_input 2 1);
    try reflexivity; try lia.
  repeat constructor; try lia; apply is_int64_small; simpl; lia.
Defined.
